(** * SyncSub: the SRT formatter of [syncsub/subtitle_formatter.py]

    A shallow embedding of [SRTFormatter] (with [format_time_srt] of
    [syncsub/utils.py] and the data classes of [syncsub/models.py]) and the
    properties of its segmentation pipeline.

    Modelling conventions.
    - Python [float] seconds are exact rationals ([Q]); [0.1] is [1 # 10].
      Rounding error, infinities and NaN are outside the model.
    - Python [int] is [Z]; [//] on integers is [Z.div] (both round towards
      minus infinity), and raises [ZeroDivisionError] on a zero divisor.
    - Python [str] is [string]; a character is a code point below 256.
    - [Segment] is a mutable data class.  Objects live in a store
      ([list Segment], an address is an index).  The segments of the input
      [TranscriptionResult] are the objects at addresses [0 .. n-1]; every
      [Segment(...)] constructor call of the formatter allocates a new
      address at the end of the store.
    - Exceptions are values of [exn]; a computation that may raise returns
      [result A]. *)

From Stdlib Require Import ZArith QArith Qround Lqa Lia Bool Sorted.
From Stdlib Require Import String Ascii DecimalString.
From stdpp Require Import base list.

Local Open Scope string_scope.
Local Open Scope Z_scope.

(** ** Exceptions *)

Inductive exn : Set :=
| ZeroDivisionError
| IOError
| FormattingError.

Definition result (A : Type) : Type := (A + exn)%type.

Definition ret {A} (a : A) : result A := inl a.
Definition raise {A} (e : exn) : result A := inr e.
Definition bind {A B} (m : result A) (k : A -> result B) : result B :=
  match m with
  | inl a => k a
  | inr e => inr e
  end.

Notation "x <- m ;; k" := (bind m (fun x => k))
  (at level 100, m at next level, right associativity).

(** [a // b] on integers. *)
Definition floordiv (a b : Z) : result Z :=
  if b =? 0 then raise ZeroDivisionError else ret (a / b).

(** [a // b] on floats, as an integer-valued quotient. *)
Definition qfloordiv (a b : Q) : result Z :=
  if Qeq_bool b 0 then raise ZeroDivisionError else ret (Qfloor (a / b)).

(** [a / n] for a float [a] and an integer [n]. *)
Definition qdiv_int (a : Q) (n : Z) : result Q :=
  if n =? 0 then raise ZeroDivisionError else ret (a / inject_Z n)%Q.

Definition Qltb (a b : Q) : bool := negb (Qle_bool b a).

(** Python's [min(a, b)]: the first argument unless the second is smaller. *)
Definition qmin (a b : Q) : Q := if Qltb b a then b else a.

(** ** Strings *)

Definition len (s : string) : Z := Z.of_nat (String.length s).

Definition nonempty (s : string) : bool :=
  match s with
  | EmptyString => false
  | String _ _ => true
  end.

(** [str.isspace] on the code points below 256. *)
Definition isspace (c : ascii) : bool :=
  let n := nat_of_ascii c in
  ((9 <=? n) && (n <=? 13) || (28 <=? n) && (n <=? 32)
   || (n =? 133) || (n =? 160))%nat.

(** [text.split()]: the maximal runs of non-whitespace characters. *)
Fixpoint split_from (cur : string) (s : string) : list string :=
  match s with
  | EmptyString => if nonempty cur then [cur] else []
  | String c rest =>
      if isspace c
      then if nonempty cur then cur :: split_from "" rest
           else split_from "" rest
      else split_from (cur ++ String c "") rest
  end.

Definition split_ws (s : string) : list string := split_from "" s.

(** [text.split(sep)] for a one-character separator: empty fields are kept
    and the result is never empty. *)
Fixpoint split_on_from (sep : ascii) (cur : string) (s : string)
    : list string :=
  match s with
  | EmptyString => [cur]
  | String c rest =>
      if Ascii.eqb c sep then cur :: split_on_from sep "" rest
      else split_on_from sep (cur ++ String c "") rest
  end.

Definition split_on (sep : ascii) (s : string) : list string :=
  split_on_from sep "" s.

Definition newline : ascii := ascii_of_nat 10.
Definition nl : string := String newline "".

(** [sep.join(parts)] *)
Definition join (sep : string) (parts : list string) : string :=
  String.concat sep parts.

(** [xs[a:b]] for indices [0 <= a] and [0 <= b]. *)
Definition slice {A} (xs : list A) (a b : Z) : list A :=
  firstn (Z.to_nat b - Z.to_nat a) (skipn (Z.to_nat a) xs).

(** [xs[:k]]: a negative [k] counts from the end. *)
Definition prefix_slice {A} (xs : list A) (k : Z) : list A :=
  if k <? 0 then firstn (Z.to_nat (Z.of_nat (length xs) + k)) xs
  else firstn (Z.to_nat k) xs.

(** ** models.py *)

Record Segment : Set := mkSegment {
  start_time : Q;
  end_time : Q;
  text : string
}.

(** Addresses and the store of [Segment] objects. *)
Abbreviation loc := nat (only parsing).
Abbreviation store := (list Segment) (only parsing).

Record TranscriptionResult : Set := mkTranscriptionResult {
  language : option string;
  segments : store;
  original_audio_path : option string
}.

Definition set_end_time (seg : Segment) (t : Q) : Segment :=
  {| start_time := start_time seg; end_time := t; text := text seg |}.

(** ** utils.py: [format_time_srt] *)

(** [round(x)]: to the nearest integer, ties to the even one. *)
Definition py_round (x : Q) : Z :=
  let f := Qfloor x in
  match Qcompare (x - inject_Z f) (1 # 2) with
  | Lt => f
  | Gt => f + 1
  | Eq => if Z.even f then f else f + 1
  end.

Definition str_int (n : Z) : string := NilZero.string_of_int (Z.to_int n).

Fixpoint zeros (k : nat) : string :=
  match k with
  | O => ""
  | S k' => String "0" (zeros k')
  end.

(** [f"{n:0wd}"] for [0 <= n] *)
Definition pad_int (w : nat) (n : Z) : string :=
  let s := str_int n in
  zeros (w - String.length s) ++ s.

Definition format_time_srt (seconds : Q) : string :=
  let seconds := if Qltb seconds 0 then 0%Q else seconds in
  let milliseconds := py_round (seconds * 1000) in
  let hrs := milliseconds / 3600000 in
  let milliseconds := milliseconds mod 3600000 in
  let mins := milliseconds / 60000 in
  let milliseconds := milliseconds mod 60000 in
  let secs := milliseconds / 1000 in
  let milliseconds := milliseconds mod 1000 in
  pad_int 2 hrs ++ ":" ++ pad_int 2 mins ++ ":" ++ pad_int 2 secs
    ++ "," ++ pad_int 3 milliseconds.

(** ** subtitle_formatter.py: [SRTFormatter._split_segment_by_chars] *)

(** An element of the list a splitter returns: the argument object itself
    ([return [segment]]), or an object built by a [Segment(...)] call. *)
Inductive piece : Set :=
| Same
| New (seg : Segment).

Definition tenth : Q := 1 # 10.

(** The local variables of the word loop that are read again
    ([current_char_count], [start_word_idx] and [word_len] are never read). *)
Record block_state : Set := mkBlockState {
  split_segments : list Segment;
  current_line : string;
  processed_chars : Z;
  current_start_time : Q;
  lines_in_block : list string
}.

(** The statements that both block-closing places of the loop share: the
    block of [lines] ends [processed] characters after [current_start_time],
    not after the end of [segment], and lasts 0.1 s when that leaves nothing;
    the next block starts where it ends, with [next_line] as current line. *)
Definition close_block (segment : Segment) (time_per_char : Q)
    (st : block_state) (lines : list string) (processed : Z)
    (next_line : string) : block_state :=
  let block_text := join nl lines in
  let sub_end_time :=
    (current_start_time st + inject_Z processed * time_per_char)%Q in
  let sub_end_time := qmin sub_end_time (end_time segment) in
  let sub_end_time :=
    if Qle_bool sub_end_time (current_start_time st)
    then (current_start_time st + tenth)%Q else sub_end_time in
  {| split_segments :=
       (split_segments st
        ++ [mkSegment (current_start_time st) sub_end_time block_text])%list;
     current_line := next_line;
     processed_chars := 0;
     current_start_time := sub_end_time;
     lines_in_block := [] |}.

Definition with_line (st : block_state) (line : string) : block_state :=
  {| split_segments := split_segments st;
     current_line := line;
     processed_chars := processed_chars st;
     current_start_time := current_start_time st;
     lines_in_block := lines_in_block st |}.

Definition with_lines (st : block_state) (lines : list string) : block_state :=
  {| split_segments := split_segments st;
     current_line := current_line st;
     processed_chars := processed_chars st;
     current_start_time := current_start_time st;
     lines_in_block := lines |}.

(** [lines_in_block.append(line); processed_chars += len(line) + 1;
    current_line = ""] *)
Definition push_line (st : block_state) (line : string) : block_state :=
  {| split_segments := split_segments st;
     current_line := "";
     processed_chars := processed_chars st + (len line + 1);
     current_start_time := current_start_time st;
     lines_in_block := (lines_in_block st ++ [line])%list |}.

(** The body of [for i, word in enumerate(words)]. *)
Definition split_word (segment : Segment) (max_chars max_lines : Z)
    (time_per_char : Q) (n_words : Z) (st : block_state) (i : Z)
    (word : string) : result block_state :=
  let potential_line :=
    if nonempty (current_line st)
    then (current_line st ++ " " ++ word)%string else word in
  if max_chars <? len potential_line then
    let st :=
      if nonempty (current_line st) then
        close_block segment time_per_char st
          (lines_in_block st ++ [current_line st])%list
          (processed_chars st) word
      else with_line st word in
    per_line <- floordiv max_chars max_lines ;;
    if per_line <? len (current_line st) then
      let lines := (lines_in_block st ++ [current_line st])%list in
      if (max_lines <=? Z.of_nat (length lines)) || (i =? n_words - 1) then
        let block_text := join nl lines in
        let block_chars := len block_text - (Z.of_nat (length lines) - 1) in
        ret (close_block segment time_per_char st lines
               (processed_chars st + block_chars) "")
      else ret (with_lines st lines)
    else ret (push_line st (current_line st))
  else
    per_line <- floordiv max_chars max_lines ;;
    if (per_line <? len potential_line)
       && (Z.of_nat (length (lines_in_block st)) <? max_lines - 1)
    then ret (push_line st potential_line)
    else ret (with_line st potential_line).

Fixpoint for_words (body : block_state -> Z -> string -> result block_state)
    (i : Z) (words : list string) (st : block_state) : result block_state :=
  match words with
  | [] => ret st
  | word :: rest => st' <- body st i word ;; for_words body (i + 1) rest st'
  end.

(** [seg.text and seg.end_time > seg.start_time] *)
Definition keep_segment (seg : Segment) : bool :=
  nonempty (text seg) && Qltb (start_time seg) (end_time seg).

Definition _split_segment_by_chars (segment : Segment)
    (max_chars max_lines : Z) : result (list piece) :=
  let text := text segment in
  if len text <=? max_chars then ret [Same]
  else
    let words := split_ws text in
    match words with
    | [] => ret [Same]
    | _ :: _ =>
        num_desired_splits <-
          (q <- floordiv (len text) max_chars ;; ret (q + 1)) ;;
        let duration := (end_time segment - start_time segment)%Q in
        let time_per_char :=
          if 0 <? len text then (duration / inject_Z (len text))%Q else 0%Q in
        st <- for_words
                (split_word segment max_chars max_lines time_per_char
                   (Z.of_nat (length words)))
                0 words
                {| split_segments := [];
                   current_line := "";
                   processed_chars := 0;
                   current_start_time := start_time segment;
                   lines_in_block := [] |} ;;
        let lines :=
          if nonempty (current_line st)
          then (lines_in_block st ++ [current_line st])%list
          else lines_in_block st in
        let all_segments :=
          match lines with
          | [] => split_segments st
          | _ :: _ =>
              (split_segments st
               ++ [mkSegment (current_start_time st) (end_time segment)
                     (join nl lines)])%list
          end in
        ret (map New (List.filter keep_segment all_segments))
    end.

(** ** [SRTFormatter._split_segment] *)

Record chunk_state : Set := mkChunkState {
  chunks : list Segment;
  current_time : Q;
  start_word_idx : Z
}.

(** The body of [for i in range(num_splits_duration)]. *)
Definition split_chunk (segment : Segment) (words : list string)
    (num_splits_duration words_per_split : Z) (split_duration : Q)
    (st : chunk_state) (i : Z) : chunk_state :=
  let end_word_idx :=
    if i <? num_splits_duration - 1
    then Z.min (start_word_idx st + words_per_split) (Z.of_nat (length words))
    else Z.of_nat (length words) in
  let sub_text := join " " (slice words (start_word_idx st) end_word_idx) in
  if nonempty sub_text then
    let sub_start := current_time st in
    let sub_end :=
      qmin (current_time st + split_duration)%Q (end_time segment) in
    let sub_end :=
      if Qle_bool sub_end sub_start then (sub_start + tenth)%Q else sub_end in
    {| chunks := (chunks st ++ [mkSegment sub_start sub_end sub_text])%list;
       current_time := sub_end;
       start_word_idx := end_word_idx |}
  else st.

(** [for i in range(i0, i0 + count)] *)
Fixpoint for_range (body : chunk_state -> Z -> chunk_state) (count : nat)
    (i : Z) (st : chunk_state) : chunk_state :=
  match count with
  | O => st
  | S count' => for_range body count' (i + 1) (body st i)
  end.

(** [final_segments.extend(self._split_segment_by_chars(seg, ...))] for each
    [seg]; a chunk returned as it is, is an object built by this call. *)
Fixpoint split_each (segs : list Segment) (max_chars max_lines : Z)
    : result (list piece) :=
  match segs with
  | [] => ret []
  | seg :: rest =>
      ps <- _split_segment_by_chars seg max_chars max_lines ;;
      final <- split_each rest max_chars max_lines ;;
      ret (map (fun p => match p with Same => New seg | New s => New s end) ps
           ++ final)%list
  end.

Definition _split_segment (segment : Segment) (max_chars : Z)
    (max_duration : Q) (max_lines : Z) : result (list piece) :=
  let duration := (end_time segment - start_time segment)%Q in
  let text := text segment in
  by_duration <-
    (if Qltb (max_duration * (3 # 2)) duration then
       q <- qfloordiv duration max_duration ;;
       let num_splits_duration := q + 1 in
       split_duration <- qdiv_int duration num_splits_duration ;;
       let words := split_ws text in
       let words_per_split :=
         if 0 <? num_splits_duration
         then Z.of_nat (length words) / num_splits_duration
         else Z.of_nat (length words) in
       let st :=
         for_range
           (split_chunk segment words num_splits_duration words_per_split
              split_duration)
           (Z.to_nat num_splits_duration) 0
           {| chunks := []; current_time := start_time segment;
              start_word_idx := 0 |} in
       match chunks st with
       | [] => ret None
       | _ :: _ =>
           final_segments <- split_each (chunks st) max_chars max_lines ;;
           ret (Some final_segments)
       end
     else ret None) ;;
  match by_duration with
  | Some final_segments => ret final_segments
  | None =>
      if max_chars <? len text
      then _split_segment_by_chars segment max_chars max_lines
      else ret [Same]
  end.

(** ** [SRTFormatter.format_subtitles] *)

(** The output file: the strings written so far, and how many more calls of
    [write] succeed ([None]: all of them). *)
Record file : Set := mkFile {
  written : list string;
  capacity : option nat
}.

(** What the file system does with [output_path]. *)
Record filesystem : Set := mkFilesystem {
  can_open : bool;
  write_capacity : option nat
}.

Definition reliable : filesystem :=
  {| can_open := true; write_capacity := None |}.

(** [open(output_path, 'w', encoding='utf-8')] *)
Definition open (fs : filesystem) : result file :=
  if can_open fs
  then ret {| written := []; capacity := write_capacity fs |}
  else raise IOError.

(** [f.write(s)] *)
Definition write (f : file) (s : string) : result file :=
  match capacity f with
  | Some O => raise IOError
  | Some (S k) =>
      ret {| written := (written f ++ [s])%list; capacity := Some k |}
  | None => ret {| written := (written f ++ [s])%list; capacity := None |}
  end.

(** The inner word wrap of one over-long line. *)
Record wrap_state : Set := mkWrapState {
  final_lines : list string;
  wrapped_line : string;
  line_len : Z
}.

Definition wrap_word (max_chars_per_segment : Z) (st : wrap_state)
    (word : string) : wrap_state :=
  if line_len st =? 0 then
    {| final_lines := final_lines st;
       wrapped_line := (wrapped_line st ++ word)%string;
       line_len := line_len st + len word |}
  else if line_len st + len word + 1 <=? max_chars_per_segment then
    {| final_lines := final_lines st;
       wrapped_line := (wrapped_line st ++ " " ++ word)%string;
       line_len := line_len st + (len word + 1) |}
  else
    {| final_lines := (final_lines st ++ [wrapped_line st])%list;
       wrapped_line := word;
       line_len := len word |}.

(** The body of [for line in lines]. *)
Definition wrap_line (max_chars_per_segment : Z) (final_lines0 : list string)
    (line : string) : list string :=
  if max_chars_per_segment <? len line then
    let st :=
      fold_left (wrap_word max_chars_per_segment) (split_ws line)
        {| final_lines := final_lines0; wrapped_line := ""; line_len := 0 |} in
    (final_lines st ++ [wrapped_line st])%list
  else (final_lines0 ++ [line])%list.

Definition wrap_lines (max_chars_per_segment : Z) (lines : list string)
    : list string :=
  fold_left (wrap_line max_chars_per_segment) lines [].

(** A cue block as it is formatted for writing. *)
Record Cue : Set := mkCue {
  cue_index : Z;
  cue_start : Q;
  cue_end : Q;
  cue_lines : list string
}.

(** The three [f.write] calls of one block. *)
Definition render (c : Cue) : list string :=
  [ (str_int (cue_index c) ++ nl)%string;
    (format_time_srt (cue_start c) ++ " --> " ++ format_time_srt (cue_end c)
       ++ nl)%string;
    (join nl (cue_lines c) ++ nl ++ nl)%string ].

Fixpoint write_all (f : file) (ss : list string) : file * option exn :=
  match ss with
  | [] => (f, None)
  | s :: rest =>
      match write f s with
      | inl f' => write_all f' rest
      | inr e => (f, Some e)
      end
  end.

(** The state a call leaves behind: the store, the cue blocks formatted (all
    but possibly the last were written completely), the strings written to
    the file, and the exception raised, if any. *)
Record run : Set := mkRun {
  store_after : store;
  cues : list Cue;
  output : list string;
  raised : option exn
}.

(** The final wrap of a block's text at [max_chars_per_segment], cut to
    [max_lines_per_block] lines: the lines of [final_text]. *)
Definition block_lines (max_chars_per_segment max_lines_per_block : Z)
    (text : string) : list string :=
  prefix_slice (wrap_lines max_chars_per_segment (split_on newline text))
    max_lines_per_block.

(** [if segment.end_time <= segment.start_time:
       segment.end_time = segment.start_time + 0.1] *)
Definition needs_padding (segment : Segment) : bool :=
  Qle_bool (end_time segment) (start_time segment).

Definition ensure_duration (segment : Segment) : Segment :=
  if needs_padding segment
  then set_end_time segment (start_time segment + tenth)%Q
  else segment.

(** The body of [for segment in formatted_segments] inside [with open]. The
    final duration check assigns to the [Segment] object itself. *)
Fixpoint write_blocks (max_chars_per_segment max_lines_per_block : Z)
    (h : store) (f : file) (subtitle_index : Z) (done : list Cue)
    (todo : list loc) : run :=
  match todo with
  | [] => {| store_after := h; cues := done; output := written f;
             raised := None |}
  | l :: rest =>
      match h !! l with
      | None =>
          write_blocks max_chars_per_segment max_lines_per_block h f
            subtitle_index done rest
      | Some segment =>
          let shown :=
            block_lines max_chars_per_segment max_lines_per_block
              (text segment) in
          let h :=
            if needs_padding segment
            then <[l := ensure_duration segment]> h else h in
          let segment := ensure_duration segment in
          let c := {| cue_index := subtitle_index;
                      cue_start := start_time segment;
                      cue_end := end_time segment;
                      cue_lines := shown |} in
          match write_all f (render c) with
          | (f, Some e) =>
              {| store_after := h; cues := (done ++ [c])%list;
                 output := written f; raised := Some FormattingError |}
          | (f, None) =>
              write_blocks max_chars_per_segment max_lines_per_block h f
                (subtitle_index + 1) (done ++ [c])%list rest
          end
      end
  end.

(** [formatted_segments.extend(split_segments)]: the pieces of the object at
    [self], new objects being put at the end of the store. *)
Fixpoint place (h : store) (self : loc) (ps : list piece)
    : store * list loc :=
  match ps with
  | [] => (h, [])
  | Same :: rest =>
      let '(h', ls) := place h self rest in (h', self :: ls)
  | New seg :: rest =>
      let '(h', ls) := place (h ++ [seg])%list self rest in
      (h', length h :: ls)
  end.

(** The first loop of [format_subtitles], over the objects at [todo]. *)
Fixpoint split_all (max_chars : Z) (max_duration : Q) (max_lines : Z)
    (h : store) (todo : list loc) : store * result (list loc) :=
  match todo with
  | [] => (h, ret [])
  | l :: rest =>
      match h !! l with
      | None => split_all max_chars max_duration max_lines h rest
      | Some segment =>
          match _split_segment segment max_chars max_duration max_lines with
          | inr e => (h, raise e)
          | inl ps =>
              let '(h1, ls) := place h l ps in
              match split_all max_chars max_duration max_lines h1 rest with
              | (h2, inl ls') => (h2, ret (ls ++ ls')%list)
              | (h2, inr e) => (h2, raise e)
              end
          end
      end
  end.

(** [format_subtitles(transcription_result, output_path, ...)]. The first
    loop runs outside [try]; inside it, every exception becomes a
    [FormattingError]. *)
Definition format_subtitles (transcription_result : TranscriptionResult)
    (fs : filesystem) (max_chars_per_segment : Z) (max_duration_seconds : Q)
    (max_lines_per_block : Z) : run :=
  let max_chars_combined := max_chars_per_segment * max_lines_per_block in
  let h := segments transcription_result in
  match split_all max_chars_combined max_duration_seconds max_lines_per_block
          h (seq 0 (length h)) with
  | (h, inr e) =>
      {| store_after := h; cues := []; output := []; raised := Some e |}
  | (h, inl formatted_segments) =>
      match open fs with
      | inr e =>
          {| store_after := h; cues := []; output := [];
             raised := Some FormattingError |}
      | inl f =>
          write_blocks max_chars_per_segment max_lines_per_block h f 1 []
            formatted_segments
      end
  end.

(** ** utils.py: [ensure_dir_exists] *)

(** The exception classes that occur in the pipeline: those the formatter
    raises, the classes of exceptions.py, and built-in ones.
    [OtherException] stands for any other subclass of [Exception]. *)
Inductive error : Set :=
| Formatter (e : exn)
| SyncSubError
| ConfigurationError
| AudioExtractionError
| TranscriptionError
| TranslationError
| FileSystemError
| FileNotFoundError
| ValueError
| NameError
| OtherException.

(** What the file system has at a path: nothing (and [os.makedirs] succeeds
    or raises [OSError]), a directory, or something else. *)
Inductive path_state : Set :=
| Absent (creatable : bool)
| Directory
| NotDirectory.

(** [ensure_dir_exists(dir_path)]: the exception it raises, if any. The
    [FileSystemError] raised inside [try] is no [OSError] and passes the
    handler. *)
Definition ensure_dir_exists (dir_path : string) (at_path : path_state)
    : option error :=
  if nonempty dir_path then
    match at_path with
    | Absent true => None
    | Absent false => Some FileSystemError
    | Directory => None
    | NotDirectory => Some FileSystemError
    end
  else Some ValueError.

(** ** subtitle_generator.py: [SubtitleGenerator.generate] *)

(** [isinstance(e, SyncSubError)] *)
Definition is_SyncSubError (e : error) : bool :=
  match e with
  | Formatter FormattingError => true
  | SyncSubError | ConfigurationError | AudioExtractionError
  | TranscriptionError | TranslationError | FileSystemError => true
  | _ => false
  end.

(** The handlers of [generate]:
    [except (SyncSubError, FileNotFoundError, FileSystemError): raise] and
    [except Exception as e: raise SyncSubError(...) from e]. *)
Definition reraise (e : error) : error :=
  if is_SyncSubError e then e
  else match e with
       | FileNotFoundError => FileNotFoundError
       | _ => SyncSubError
       end.

(** What [generate] calls and does not define: the directory check of
    [output_dir], [audio_extractor.extract_audio], [transcriber.transcribe],
    [translator.translate] (at its [i]-th call of the loop), and the files
    at [en_subtitle_path] and [ml_subtitle_path]. *)
Record collaborators : Type := mkCollaborators {
  output_dir_state : path_state;
  extract_audio : string -> string + error;
  transcribe : string -> option TranscriptionResult + error;
  translate : nat -> string -> string + error;
  en_file : filesystem;
  ml_file : filesystem
}.

(** The loop [for i, segment in enumerate(english_result.segments)]. The
    name [TranslationError] of its handler is not bound in
    subtitle_generator.py (the module imports [SyncSubError] and
    [FileSystemError] only), so matching an exception against it raises
    [NameError]. *)
Fixpoint translate_segments (translate : nat -> string -> string + error)
    (i : nat) (english_segments : list Segment)
    (malayalam_segments : list Segment) : list Segment + error :=
  match english_segments with
  | [] => inl malayalam_segments
  | segment :: rest =>
      match translate i (text segment) with
      | inl translated_text =>
          translate_segments translate (S i) rest
            (malayalam_segments
             ++ [mkSegment (start_time segment) (end_time segment)
                   translated_text])%list
      | inr _ => inr NameError
      end
  end.

(** What a call of [generate] leaves behind: the two calls of
    [format_subtitles] that were made, the input of the second one, the path
    handed to [_cleanup_temp_files], and the exception raised, if any. *)
Record generated : Type := mkGenerated {
  english : option run;
  malayalam_result : option TranscriptionResult;
  malayalam : option run;
  cleaned : option string;
  failure : option error
}.

(** [generate(video_path, output_dir)] for a generator with the fields
    [max_chars], [max_duration] and [max_lines]. The first call of
    [format_subtitles] works on the [Segment] objects of [english_result];
    the translation loop reads them as that call leaves them. *)
Definition generate (c : collaborators) (video_path output_dir : string)
    (max_chars : Z) (max_duration : Q) (max_lines : Z) : generated :=
  match ensure_dir_exists output_dir (output_dir_state c) with
  | Some e =>
      {| english := None; malayalam_result := None; malayalam := None;
         cleaned := None; failure := Some e |}
  | None =>
      match extract_audio c video_path with
      | inr e =>
          {| english := None; malayalam_result := None; malayalam := None;
             cleaned := None; failure := Some (reraise e) |}
      | inl extracted_audio_path =>
          let failed english malayalam_result malayalam e :=
            {| english := english; malayalam_result := malayalam_result;
               malayalam := malayalam;
               cleaned := Some extracted_audio_path;
               failure := Some (reraise e) |} in
          match transcribe c extracted_audio_path with
          | inr e => failed None None None e
          | inl None => failed None None None SyncSubError
          | inl (Some english_result) =>
              match segments english_result with
              | [] => failed None None None SyncSubError
              | _ :: _ =>
                  let en :=
                    format_subtitles english_result (en_file c) max_chars
                      max_duration max_lines in
                  match raised en with
                  | Some e => failed (Some en) None None (Formatter e)
                  | None =>
                      let english_segments :=
                        take (length (segments english_result))
                          (store_after en) in
                      match translate_segments (translate c) 0
                              english_segments [] with
                      | inr e => failed (Some en) None None e
                      | inl [] =>
                          {| english := Some en; malayalam_result := None;
                             malayalam := None;
                             cleaned := Some extracted_audio_path;
                             failure := None |}
                      | inl ((_ :: _) as malayalam_segments) =>
                          let malayalam_result :=
                            {| language := Some "ml";
                               segments := malayalam_segments;
                               original_audio_path :=
                                 Some extracted_audio_path |} in
                          let ml :=
                            format_subtitles malayalam_result (ml_file c)
                              max_chars max_duration max_lines in
                          match raised ml with
                          | Some e =>
                              failed (Some en) (Some malayalam_result)
                                (Some ml) (Formatter e)
                          | None =>
                              {| english := Some en;
                                 malayalam_result := Some malayalam_result;
                                 malayalam := Some ml;
                                 cleaned := Some extracted_audio_path;
                                 failure := None |}
                          end
                      end
                  end
              end
          end
      end
  end.

(** ** Inputs and observations used in the statements *)

(** A transcription result that holds the given segments. *)
Definition transcript (segs : list Segment) : TranscriptionResult :=
  {| language := Some "en"; segments := segs; original_audio_path := None |}.

(** The segments a splitter's result stands for, [Same] being [self]. *)
Definition resolve (self : Segment) (p : piece) : Segment :=
  match p with
  | Same => self
  | New seg => seg
  end.

Definition pieces (self : Segment) (r : result (list piece)) : list Segment :=
  match r with
  | inl ps => map (resolve self) ps
  | inr _ => []
  end.

(** What [_split_segment] makes of a segment under a configuration of
    [format_subtitles]. *)
Definition split_pipeline (max_chars_per_segment : Z)
    (max_duration_seconds : Q) (max_lines_per_block : Z) (seg : Segment)
    : list Segment :=
  pieces seg
    (_split_segment seg (max_chars_per_segment * max_lines_per_block)
       max_duration_seconds max_lines_per_block).

Definition duration (seg : Segment) : Q := (end_time seg - start_time seg)%Q.

Definition cue_duration (c : Cue) : Q := (cue_end c - cue_start c)%Q.

Definition total_cue_duration (cs : list Cue) : Q :=
  fold_right (fun c acc => (cue_duration c + acc)%Q) 0%Q cs.

(** The words of a list of segments, in order. *)
Definition words_of (segs : list Segment) : list string :=
  flat_map (fun seg => split_ws (text seg)) segs.

(** Start and end of a cue, in lowest terms. *)
Definition cue_times (c : Cue) : Q * Q :=
  (Qred (cue_start c), Qred (cue_end c)).

Definition segment_times (seg : Segment) : Q * Q :=
  (Qred (start_time seg), Qred (end_time seg)).

(** [n] copies of [w], joined by single spaces. *)
Definition repeat_word (w : string) (n : nat) : string :=
  join " " (repeat w n).

(** [c * n] *)
Fixpoint repeat_char (c : ascii) (n : nat) : string :=
  match n with
  | O => ""
  | S n' => String c (repeat_char c n')
  end.

(** A string without whitespace, and a word: a non-empty one. *)
Fixpoint no_space (s : string) : bool :=
  match s with
  | EmptyString => true
  | String c rest => negb (isspace c) && no_space rest
  end.

Definition is_word (s : string) : bool := nonempty s && no_space s.

(** [c in s] *)
Fixpoint contains (c : ascii) (s : string) : bool :=
  match s with
  | EmptyString => false
  | String c' rest => Ascii.eqb c' c || contains c rest
  end.






(** "Scenario B" of the specification. *)
Definition scenario_B : Segment :=
  mkSegment 0 20 (repeat_word "word" 100).

(** "Scenario D": a segment without duration. *)
Definition scenario_D : Segment := mkSegment 5 5 "hi".

(** "Scenario E": a segment without text. *)
Definition scenario_E : Segment := mkSegment 0 2 "".

(** A word of 200 characters (the token of "Scenario C") followed by a
    second word. *)
Definition long_token : string := repeat_char "A" 200.
Definition long_token_then_word : Segment :=
  mkSegment 0 3 (long_token ++ " b")%string.

(** Twenty seconds for a single word. *)
Definition one_word_long_duration : Segment := mkSegment 0 20 "hello".

(** ** Predicates of the statements and of the loop invariants *)



(** What the call may do to an object: nothing, or give it the end time
    [start_time + 0.1] when its end time is not after its start time. *)
Definition same_or_padded (seg seg' : Segment) : Prop :=
  seg' = seg
  \/ ((end_time seg <= start_time seg)%Q
      /\ seg' = set_end_time seg (start_time seg + tenth)%Q).

Definition store_evolves (h h' : store) : Prop :=
  forall l seg, h !! l = Some seg ->
    exists seg', h' !! l = Some seg' /\ same_or_padded seg seg'.



(** The pieces of the object at an address. *)
Definition pieces_at (max_chars : Z) (max_duration : Q) (max_lines : Z)
    (h : store) (l : loc) : list Segment :=
  match h !! l with
  | Some seg =>
      pieces seg (_split_segment seg max_chars max_duration max_lines)
  | None => []
  end.

(** The words a cue block shows. *)
Definition cue_words (c : Cue) : list string :=
  flat_map split_ws (cue_lines c).

(** ** Observations of the further properties *)

(** The cue block that the writing loop formats for a segment. *)
Definition cue_of (max_chars_per_segment max_lines_per_block : Z)
    (subtitle_index : Z) (segment : Segment) : Cue :=
  {| cue_index := subtitle_index;
     cue_start := start_time (ensure_duration segment);
     cue_end := end_time (ensure_duration segment);
     cue_lines :=
       block_lines max_chars_per_segment max_lines_per_block
         (text segment) |}.

(** The cue blocks of a list of segments, numbered from [subtitle_index]. *)
Fixpoint cues_from (max_chars_per_segment max_lines_per_block : Z)
    (subtitle_index : Z) (segs : list Segment) : list Cue :=
  match segs with
  | [] => []
  | seg :: rest =>
      cue_of max_chars_per_segment max_lines_per_block subtitle_index seg
      :: cues_from max_chars_per_segment max_lines_per_block
           (subtitle_index + 1) rest
  end.

(** All pieces of an input, in the order of [formatted_segments]. *)
Definition all_pieces (max_chars_per_segment : Z) (max_duration_seconds : Q)
    (max_lines_per_block : Z) (tr : TranscriptionResult) : list Segment :=
  flat_map
    (split_pipeline max_chars_per_segment max_duration_seconds
       max_lines_per_block)
    (segments tr).

(** The invariant of the chunk loop of the duration splitter on the words:
    the chunks built so far hold the words before [start_word_idx], and no
    chunk is longer than the words joined by spaces. *)
Definition chunk_words_inv (words : list string) (st : chunk_state) : Prop :=
  0 <= start_word_idx st <= Z.of_nat (length words)
  /\ words_of (chunks st) = take (Z.to_nat (start_word_idx st)) words
  /\ Forall (fun c => len (text c) <= len (join " " words)) (chunks st).

(** Segments that follow one another without gap or overlap, the first one
    starting at [t]. *)
Fixpoint chained (t : Q) (segs : list Segment) : Prop :=
  match segs with
  | [] => True
  | s :: rest => start_time s = t /\ chained (end_time s) rest
  end.

(** Where a chain that starts at [t] ends. *)
Definition last_end (t : Q) (segs : list Segment) : Q :=
  fold_left (fun _ s => end_time s) segs t.

(** The invariant of the word loop of the character splitter on the blocks:
    they follow one another from the start of the segment to
    [current_start_time], and the final filter keeps every one of them. *)
Definition blocks_inv (segment : Segment) (st : block_state) : Prop :=
  chained (start_time segment) (split_segments st)
  /\ last_end (start_time segment) (split_segments st)
     = current_start_time st
  /\ Forall (fun s => keep_segment s = true) (split_segments st).

(** [num_splits_duration] of a segment: [int(duration // max_duration) + 1]
    for a [max_duration] that is not zero. *)
Definition num_splits (seg : Segment) (max_duration : Q) : Z :=
  Qfloor (duration seg / max_duration) + 1.

(** The invariant of the chunk loop of the duration splitter before
    iteration [i], when every chunk gets [words_per_split >= 1] words:
    [i] chunks of [split_duration] seconds each follow one another from the
    start of the segment. *)
Definition tile_inv (segment : Segment) (num_splits_duration : Z)
    (words_per_split : Z) (split_duration : Q) (i : Z) (st : chunk_state)
    : Prop :=
  Z.of_nat (length (chunks st)) = i
  /\ (i <= num_splits_duration - 1 ->
      start_word_idx st = i * words_per_split)
  /\ (current_time st
      == start_time segment + inject_Z i * split_duration)%Q
  /\ chained (start_time segment) (chunks st)
  /\ last_end (start_time segment) (chunks st) = current_time st
  /\ Forall (fun c => (duration c == split_duration)%Q) (chunks st).

(** The whole milliseconds [format_time_srt] prints for a time:
    [round(seconds * 1000)], after [if seconds < 0: seconds = 0.0]. *)
Definition milliseconds_of (seconds : Q) : Z :=
  py_round ((if Qltb seconds 0 then 0%Q else seconds) * 1000).

(** The number a string of decimal digits denotes. *)
Definition digit_value (c : ascii) : Z := Z.of_nat (nat_of_ascii c) - 48.

Definition is_digit (c : ascii) : bool :=
  (48 <=? nat_of_ascii c)%nat && (nat_of_ascii c <=? 57)%nat.

Fixpoint digits_value_from (acc : Z) (s : string) : Z :=
  match s with
  | EmptyString => acc
  | String c rest => digits_value_from (acc * 10 + digit_value c) rest
  end.

Definition digits_value (s : string) : Z := digits_value_from 0 s.

Fixpoint all_digits (s : string) : bool :=
  match s with
  | EmptyString => true
  | String c rest => is_digit c && all_digits rest
  end.

(** [f"{k:0wd}"] has [w] characters, all digits, that denote [k]. *)
Definition padded_ok (w : nat) (k : nat) : bool :=
  let s := pad_int w (Z.of_nat k) in
  (String.length s =? w)%nat && all_digits s
  && (digits_value s =? Z.of_nat k).

(** Collaborators that always succeed, for a transcription of two
    segments, and a translator that fails at the second segment. *)
Definition two_segments : TranscriptionResult :=
  {| language := Some "en";
     segments := [mkSegment 5 5 "hi"; mkSegment 6 7 "there"];
     original_audio_path := Some "a.wav" |}.

Definition working_collaborators : collaborators :=
  {| output_dir_state := Directory;
     extract_audio := fun _ => inl "a.wav";
     transcribe := fun _ => inl (Some two_segments);
     translate := fun _ t => inl (t ++ "!")%string;
     en_file := reliable;
     ml_file := reliable |}.

Definition failing_translator : collaborators :=
  {| output_dir_state := Directory;
     extract_audio := fun _ => inl "a.wav";
     transcribe := fun _ => inl (Some two_segments);
     translate := fun i t =>
       match i with
       | 1%nat => inr TranslationError
       | _ => inl (t ++ "!")%string
       end;
     en_file := reliable;
     ml_file := reliable |}.

(** The invariant of the word loop of the character splitter on the words:
    the blocks, the lines of the current block and the current line hold
    words of [universe] only. *)
Definition known_words_inv (universe : list string) (st : block_state)
    : Prop :=
  Forall (fun s => incl (split_ws (text s)) universe) (split_segments st)
  /\ incl (split_ws (current_line st)) universe
  /\ incl (flat_map split_ws (lines_in_block st)) universe.


(** * Properties *)

(** ** Comparisons on [Q] *)

Lemma Qltb_lt (a b : Q) : Qltb a b = true <-> (a < b)%Q.
Proof.
  unfold Qltb. rewrite negb_true_iff, <- not_true_iff_false, Qle_bool_iff.
  split; [apply Qnot_le_lt | apply Qlt_not_le].
Qed.

Lemma Qltb_ge (a b : Q) : Qltb a b = false <-> (b <= a)%Q.
Proof.
  unfold Qltb. rewrite negb_false_iff. apply Qle_bool_iff.
Qed.

Lemma Qle_bool_gt (a b : Q) : Qle_bool a b = false <-> (b < a)%Q.
Proof.
  rewrite <- not_true_iff_false, Qle_bool_iff.
  split; [apply Qnot_le_lt | apply Qlt_not_le].
Qed.

(** ** The final duration check *)

Lemma needs_padding_true (seg : Segment) :
  needs_padding seg = true <-> (end_time seg <= start_time seg)%Q.
Proof. apply Qle_bool_iff. Qed.


Lemma ensure_duration_positive (seg : Segment) :
  (start_time (ensure_duration seg) < end_time (ensure_duration seg))%Q.
Proof.
  unfold ensure_duration. destruct (needs_padding seg) eqn:E; simpl.
  - unfold tenth. lra.
  - now apply Qle_bool_gt.
Qed.

(** ** The cues of the writing loop *)

Lemma write_blocks_cons mcps ml h f i done l rest :
  write_blocks mcps ml h f i done (l :: rest) =
  match h !! l with
  | None => write_blocks mcps ml h f i done rest
  | Some segment =>
      let c := {| cue_index := i;
                  cue_start := start_time (ensure_duration segment);
                  cue_end := end_time (ensure_duration segment);
                  cue_lines := block_lines mcps ml (text segment) |} in
      let h' :=
        if needs_padding segment
        then <[l := ensure_duration segment]> h else h in
      match write_all f (render c) with
      | (f', Some e) =>
          {| store_after := h'; cues := (done ++ [c])%list;
             output := written f'; raised := Some FormattingError |}
      | (f', None) =>
          write_blocks mcps ml h' f' (i + 1) (done ++ [c])%list rest
      end
  end.
Proof. reflexivity. Qed.

Section WriteBlocks.
Variables max_chars_per_segment max_lines_per_block : Z.
Variable P : Cue -> Prop.

(** [P] holds for whatever block the loop body formats. *)
Hypothesis P_body : forall (i : Z) (seg : Segment),
  P {| cue_index := i;
       cue_start := start_time (ensure_duration seg);
       cue_end := end_time (ensure_duration seg);
       cue_lines :=
         block_lines max_chars_per_segment max_lines_per_block (text seg) |}.


End WriteBlocks.


(** ** Scenarios *)

(** C7 (amended). Scenario B: with [max_duration_seconds = 7] and the
    default limits 80 and 2, the segment from 0 s to 20 s with a hundred
    times "word" is split into exactly three pieces of 20/3 s each (about
    6.67 s), with 33, 33 and 34 words, and three cue blocks with these times
    are written. Each piece has two lines of more than 80 characters; the
    final wrap breaks the first one after 16 words and cuts the block to two
    lines, so that each written cue shows the first 17 words of its piece. *)
Theorem scenario_B_three_cues :
  let parts := split_pipeline 80 7 2 scenario_B in
  let r := format_subtitles (transcript [scenario_B]) reliable 80 7 2 in
  map segment_times parts = [(0, 20 # 3); (20 # 3, 40 # 3); (40 # 3, 20)]%Q
  /\ Forall (fun seg => duration seg == 20 # 3)%Q parts
  /\ map (fun seg => length (split_ws (text seg))) parts = [33; 33; 34]%nat
  /\ words_of parts = split_ws (text scenario_B)
  /\ map cue_times (cues r)
     = [(0, 20 # 3); (20 # 3, 40 # 3); (40 # 3, 20)]%Q
  /\ map (fun c => map (fun line => length (split_ws line)) (cue_lines c))
       (cues r)
     = [[16; 1]; [16; 1]; [16; 1]]%nat
  /\ Forall (fun c => cue_words c = repeat "word" 17) (cues r).
Proof.
  vm_compute. repeat split.
  - repeat (constructor; [reflexivity|]). constructor.
  - repeat (constructor; [reflexivity|]). constructor.
Qed.

(** C7 (as stated, refuted). The three cue blocks written for Scenario B
    contain 17 words each, not 33, 33 and 34. *)
Theorem scenario_B_written_words :
  map (fun c => length (cue_words c))
    (cues (format_subtitles (transcript [scenario_B]) reliable 80 7 2))
  = [17; 17; 17]%nat.
Proof. vm_compute. reflexivity. Qed.

(** C5 (the code differs). The empty segment of Scenario E is returned by
    [_split_segment] as it is, and [format_subtitles] writes a cue block
    for it whose text line is empty. *)
Theorem empty_segment_is_written :
  _split_segment scenario_E (80 * 2) 7 2 = inl [Same]
  /\ output (format_subtitles (transcript [scenario_E]) reliable 80 7 2)
     = [ ("1" ++ nl)%string;
         ("00:00:00,000 --> 00:00:02,000" ++ nl)%string;
         (nl ++ nl)%string ]
  /\ raised (format_subtitles (transcript [scenario_E]) reliable 80 7 2)
     = None.
Proof. vm_compute. repeat split. Qed.

(** C3 (the code differs). A segment of 20 s with a single word: the first
    two of the three duration chunks are empty and skipped, and the only
    cue lasts 20/3 s, less than the segment. *)
Theorem single_word_loses_time :
  let r := format_subtitles (transcript [one_word_long_duration]) reliable
             80 7 2 in
  map cue_times (cues r) = [(0, 20 # 3)]%Q
  /\ (total_cue_duration (cues r) < duration one_word_long_duration)%Q.
Proof. vm_compute. split; reflexivity. Qed.

(** C2 (the code differs). A word longer than the block, followed by one
    more word, comes out twice: the pieces of ["A...A b"] have the words
    ["A...A"; "A...A"; "b"]. *)
Theorem long_word_is_duplicated :
  let parts := split_pipeline 80 7 2 long_token_then_word in
  map text parts = [(long_token ++ nl ++ long_token)%string; "b"]
  /\ words_of parts = [long_token; long_token; "b"]
  /\ split_ws (text long_token_then_word) = [long_token; "b"].
Proof. vm_compute. repeat split. Qed.

(** ** Strings *)

Lemma length_append (a b : string) :
  String.length (a ++ b)%string = (String.length a + String.length b)%nat.
Proof. induction a as [|c a IH]; simpl; [reflexivity | now rewrite IH]. Qed.

Lemma len_append (a b : string) : len (a ++ b)%string = len a + len b.
Proof. unfold len. rewrite length_append. lia. Qed.

Lemma len_nonempty (s : string) : nonempty s = true -> 1 <= len s.
Proof. destruct s; [discriminate|]. unfold len. simpl. lia. Qed.

Lemma no_space_append (a b : string) :
  no_space (a ++ b)%string = no_space a && no_space b.
Proof.
  induction a as [|c a IH]; simpl; [reflexivity|].
  now rewrite IH, andb_assoc.
Qed.

Lemma is_word_nonempty (w : string) : is_word w = true -> nonempty w = true.
Proof. unfold is_word. now intros [H _]%andb_true_iff. Qed.

(** [text.split()] returns words. *)
Lemma split_from_words (s : string) :
  forall cur, no_space cur = true ->
    Forall (fun w => is_word w = true) (split_from cur s).
Proof.
  induction s as [|c rest IH]; intros cur Hcur; simpl.
  - destruct (nonempty cur) eqn:E; constructor; [|constructor].
    unfold is_word. now rewrite E, Hcur.
  - destruct (isspace c) eqn:Ec.
    + destruct (nonempty cur) eqn:E.
      * constructor; [unfold is_word; now rewrite E, Hcur | now apply IH].
      * now apply IH.
    + apply IH. rewrite no_space_append, Hcur. simpl. now rewrite Ec.
Qed.

Lemma split_ws_words (s : string) :
  Forall (fun w => is_word w = true) (split_ws s).
Proof. now apply split_from_words. Qed.

Lemma append_empty_r (s : string) : (s ++ "")%string = s.
Proof. induction s as [|c s IH]; simpl; [reflexivity | now rewrite IH]. Qed.

Lemma append_snoc (a : string) (c : ascii) (b : string) :
  ((a ++ String c "") ++ b)%string = (a ++ String c b)%string.
Proof. induction a as [|d a IH]; simpl; [reflexivity | now rewrite IH]. Qed.

(** A text without the separator is a single field. *)
Lemma split_on_from_absent (sep : ascii) (s : string) :
  forall cur, contains sep s = false ->
    split_on_from sep cur s = [(cur ++ s)%string].
Proof.
  induction s as [|c rest IH]; intros cur H; simpl in *.
  - now rewrite append_empty_r.
  - apply orb_false_iff in H as [Hc Hrest].
    now rewrite Hc, (IH _ Hrest), append_snoc.
Qed.

Lemma split_on_absent (sep : ascii) (s : string) :
  contains sep s = false -> split_on sep s = [s].
Proof. intros H. unfold split_on. now rewrite split_on_from_absent. Qed.

(** ** The final wrap *)

Section Wrap.
Variable max_chars_per_segment : Z.
Hypothesis max_chars_nonneg : 0 <= max_chars_per_segment.





End Wrap.




(** ** Writing to a file that never fails *)

Lemma write_all_unlimited (ss : list string) :
  forall f, capacity f = None ->
    write_all f ss
    = ({| written := (written f ++ ss)%list; capacity := None |}, None).
Proof.
  induction ss as [|s rest IH]; intros [w c] Hc; simpl in *; subst c.
  - now rewrite app_nil_r.
  - unfold write. simpl. rewrite IH by reflexivity. simpl.
    now rewrite <- app_assoc.
Qed.

(** ** The identity case *)

Lemma split_segment_identity (seg : Segment) (max_chars : Z)
    (max_duration : Q) (max_lines : Z) :
  (start_time seg < end_time seg)%Q ->
  (end_time seg - start_time seg <= max_duration)%Q ->
  len (text seg) <= max_chars ->
  _split_segment seg max_chars max_duration max_lines = inl [Same].
Proof.
  intros Hpos Hdur Hlen. unfold _split_segment.
  assert (E : Qltb (max_duration * (3 # 2)) (end_time seg - start_time seg)
              = false) by (apply Qltb_ge; lra).
  rewrite E. simpl.
  apply Z.ltb_ge in Hlen. now rewrite Hlen.
Qed.

Lemma needs_padding_false (seg : Segment) :
  (start_time seg < end_time seg)%Q -> needs_padding seg = false.
Proof. intros H. now apply Qle_bool_gt. Qed.

Lemma ensure_duration_id (seg : Segment) :
  (start_time seg < end_time seg)%Q -> ensure_duration seg = seg.
Proof. intros H. unfold ensure_duration. now rewrite needs_padding_false. Qed.

(** What the call writes for an input of one segment that is returned by
    [_split_segment] as it is. *)
Lemma format_single_unsplit (seg : Segment) (mcps : Z) (md : Q) (ml : Z) :
  _split_segment seg (mcps * ml) md ml = inl [Same] ->
  let c := {| cue_index := 1;
              cue_start := start_time (ensure_duration seg);
              cue_end := end_time (ensure_duration seg);
              cue_lines := block_lines mcps ml (text seg) |} in
  let r := format_subtitles (transcript [seg]) reliable mcps md ml in
  cues r = [c] /\ output r = render c /\ raised r = None
  /\ store_after r = [ensure_duration seg].
Proof.
  intros Hsplit c r. subst r. unfold format_subtitles.
  cbn -[write_blocks _split_segment Z.mul].
  rewrite Hsplit. cbn -[write_blocks]. rewrite write_blocks_cons.
  cbn -[write_all render block_lines]. fold c.
  rewrite write_all_unlimited by reflexivity.
  repeat split. cbn [store_after]. unfold ensure_duration.
  now destruct (needs_padding seg).
Qed.

(** C6 (amended). A segment with text, a positive duration of at most
    [max_duration_seconds] and at most [max_chars_per_segment *
    max_lines_per_block] characters yields exactly one cue block, with the
    segment's start and end time. Its lines are the final wrap of the text;
    the text is written unchanged on a single line when it has no newline
    and at most [max_chars_per_segment] characters. *)
Theorem identity_law :
  forall (seg : Segment) (max_chars_per_segment : Z)
         (max_duration_seconds : Q) (max_lines_per_block : Z),
    nonempty (text seg) = true ->
    (start_time seg < end_time seg)%Q ->
    (end_time seg - start_time seg <= max_duration_seconds)%Q ->
    len (text seg) <= max_chars_per_segment * max_lines_per_block ->
    let r := format_subtitles (transcript [seg]) reliable
               max_chars_per_segment max_duration_seconds
               max_lines_per_block in
    raised r = None
    /\ cues r = [ {| cue_index := 1;
                     cue_start := start_time seg;
                     cue_end := end_time seg;
                     cue_lines :=
                       block_lines max_chars_per_segment max_lines_per_block
                         (text seg) |} ]
    /\ (len (text seg) <= max_chars_per_segment ->
        contains newline (text seg) = false ->
        block_lines max_chars_per_segment max_lines_per_block (text seg)
        = [text seg]).
Proof.
  intros seg mcps md ml Htext Hpos Hdur Hlen r.
  destruct (format_single_unsplit seg mcps md ml) as (Hc & _ & Hr & _).
  { now apply split_segment_identity. }
  fold r in Hc, Hr. rewrite (ensure_duration_id _ Hpos) in Hc.
  repeat split; [exact Hr | exact Hc |].
  intros Hshort Hnl. apply len_nonempty in Htext.
  assert (1 <= ml) by nia.
  unfold block_lines. rewrite split_on_absent by exact Hnl.
  unfold wrap_lines, wrap_line. simpl.
  apply Z.ltb_ge in Hshort. rewrite Hshort. simpl.
  unfold prefix_slice. destruct (ml <? 0) eqn:E; [apply Z.ltb_lt in E; lia|].
  destruct (Z.to_nat ml) eqn:En; [lia | now destruct n].
Qed.

Lemma identity_law_witness :
  let r := format_subtitles (transcript [mkSegment 0 5 "Hello world"])
             reliable 80 7 2 in
  raised r = None
  /\ cues r = [ {| cue_index := 1; cue_start := 0; cue_end := 5;
                   cue_lines := block_lines 80 2 "Hello world" |} ]
  /\ (len "Hello world" <= 80 ->
      contains newline "Hello world" = false ->
      block_lines 80 2 "Hello world" = ["Hello world"]).
Proof.
  apply (identity_law (mkSegment 0 5 "Hello world") 80 7 2);
    [reflexivity | reflexivity | simpl; lra | vm_compute; discriminate].
Defined.

(** C6 (as stated, refuted). A segment of 2 s with twenty words (99
    characters, within 80 * 2) is one cue, but its text is written on two
    lines. *)
Theorem identity_law_rewraps :
  let seg := mkSegment 0 2 (repeat_word "word" 20) in
  nonempty (text seg) = true
  /\ (end_time seg - start_time seg <= 7)%Q
  /\ len (text seg) <= 80 * 2
  /\ map cue_lines
       (cues (format_subtitles (transcript [seg]) reliable 80 7 2))
     = [[repeat_word "word" 16; repeat_word "word" 4]].
Proof. vm_compute. repeat split; discriminate. Qed.

(** ** The store *)

Lemma same_or_padded_trans (a b c : Segment) :
  same_or_padded a b -> same_or_padded b c -> same_or_padded a c.
Proof.
  intros [->|[Hle ->]] Hbc; [exact Hbc|].
  destruct Hbc as [->|[Hle' _]]; [now right|].
  simpl in Hle'. unfold tenth in Hle'. lra.
Qed.

Lemma store_evolves_refl (h : store) : store_evolves h h.
Proof. intros l seg H. exists seg. split; [exact H | now left]. Qed.

Lemma store_evolves_trans (h1 h2 h3 : store) :
  store_evolves h1 h2 -> store_evolves h2 h3 -> store_evolves h1 h3.
Proof.
  intros H12 H23 l seg H1.
  destruct (H12 _ _ H1) as (seg2 & H2 & R12).
  destruct (H23 _ _ H2) as (seg3 & H3 & R23).
  exists seg3. split; [exact H3 | now apply (same_or_padded_trans _ seg2)].
Qed.

Lemma store_evolves_app (h t : store) : store_evolves h (h ++ t)%list.
Proof.
  intros l seg H. exists seg. split; [|now left].
  now apply lookup_app_l_Some.
Qed.

Lemma place_extends (ps : list piece) :
  forall h self, exists t, (place h self ps).1 = (h ++ t)%list.
Proof.
  induction ps as [|[|seg] rest IH]; intros h self; simpl.
  - exists []. now rewrite app_nil_r.
  - destruct (IH h self) as [t Ht].
    destruct (place h self rest) as [h' ls]. now exists t.
  - destruct (IH (h ++ [seg])%list self) as [t Ht].
    destruct (place (h ++ [seg])%list self rest) as [h' ls].
    exists (seg :: t). simpl in *. rewrite Ht. now rewrite <- app_assoc.
Qed.

Lemma split_all_extends mc md ml (todo : list loc) :
  forall h, exists t, (split_all mc md ml h todo).1 = (h ++ t)%list.
Proof.
  induction todo as [|l rest IH]; intros h; simpl.
  - exists []. now rewrite app_nil_r.
  - destruct (h !! l) as [seg|]; [|apply IH].
    destruct (_split_segment seg mc md ml) as [ps|e]; simpl.
    + destruct (place_extends ps h l) as [t1 Ht1].
      destruct (place h l ps) as [h1 ls]. simpl in Ht1. subst h1.
      destruct (IH (h ++ t1)%list) as [t2 Ht2].
      destruct (split_all mc md ml (h ++ t1)%list rest) as [h2 [ls'|e]];
        simpl in *; exists (t1 ++ t2)%list; now rewrite app_assoc.
    + exists []. now rewrite app_nil_r.
Qed.

Lemma store_evolves_padding (h : store) (l : loc) (seg : Segment) :
  h !! l = Some seg ->
  store_evolves h
    (if needs_padding seg then <[l := ensure_duration seg]> h else h).
Proof.
  intros Hl. destruct (needs_padding seg) eqn:E; [|apply store_evolves_refl].
  intros l' seg' H'. destruct (decide (l = l')) as [Heq|Hne].
  - subst l'. assert (seg' = seg) as -> by congruence.
    exists (ensure_duration seg). split.
    + apply list_lookup_insert_eq. now apply lookup_lt_Some in Hl.
    + right. unfold ensure_duration. rewrite E.
      split; [now apply needs_padding_true | reflexivity].
  - exists seg'. split; [|now left]. now rewrite list_lookup_insert_ne.
Qed.

Lemma write_blocks_store mcps ml (todo : list loc) :
  forall h f i done,
    store_evolves h (store_after (write_blocks mcps ml h f i done todo)).
Proof.
  induction todo as [|l rest IH]; intros h f i done.
  - apply store_evolves_refl.
  - rewrite write_blocks_cons.
    destruct (h !! l) as [seg|] eqn:Hl; [|apply IH].
    cbv zeta.
    match goal with
    | |- context [write_all ?f0 ?ss] =>
        destruct (write_all f0 ss) as [f' [e|]]
    end.
    + cbn [store_after]. now apply store_evolves_padding.
    + eapply store_evolves_trans; [apply store_evolves_padding, Hl | apply IH].
Qed.

Lemma format_subtitles_store tr fs mcps md ml :
  store_evolves (segments tr)
    (store_after (format_subtitles tr fs mcps md ml)).
Proof.
  unfold format_subtitles.
  destruct (split_all_extends (mcps * ml) md ml
              (seq 0 (length (segments tr))) (segments tr)) as [t Ht].
  destruct (split_all _ _ _ _ _) as [h [formatted|e]]; simpl in Ht; subst h.
  - destruct (open fs) as [f|e]; simpl.
    + eapply store_evolves_trans;
        [apply store_evolves_app | apply write_blocks_store].
    + apply store_evolves_app.
  - apply store_evolves_app.
Qed.

(** C4 (amended). After a call of [format_subtitles], every [Segment] object
    of the input has the start time and the text it had before; its end
    time is the same too, unless it was not after the start time, in which
    case it is the same or has become [start_time + 0.1]. *)
Theorem input_segments_after_call :
  forall (tr : TranscriptionResult) (fs : filesystem)
         (max_chars_per_segment : Z) (max_duration_seconds : Q)
         (max_lines_per_block : Z) (l : loc) (seg : Segment),
    segments tr !! l = Some seg ->
    exists seg',
      store_after (format_subtitles tr fs max_chars_per_segment
                     max_duration_seconds max_lines_per_block) !! l
      = Some seg'
      /\ start_time seg' = start_time seg
      /\ text seg' = text seg
      /\ (end_time seg' = end_time seg
          \/ ((end_time seg <= start_time seg)%Q
              /\ end_time seg' = (start_time seg + tenth)%Q)).
Proof.
  intros tr fs mcps md ml l seg Hl.
  destruct (format_subtitles_store tr fs mcps md ml l seg Hl)
    as (seg' & Hl' & [->|[Hle ->]]); exists seg' || eexists;
    (split; [exact Hl'|]); simpl; auto.
Qed.

Lemma input_segments_after_call_witness :
  exists seg',
    store_after (format_subtitles (transcript [scenario_D]) reliable 80 7 2)
      !! 0%nat = Some seg'
    /\ start_time seg' = 5%Q
    /\ text seg' = "hi"
    /\ (end_time seg' = 5%Q
        \/ ((5 <= 5)%Q /\ end_time seg' = (5 + tenth)%Q)).
Proof.
  apply (input_segments_after_call (transcript [scenario_D]) reliable 80 7 2
           0%nat scenario_D).
  reflexivity.
Defined.

(** C4 (as stated, refuted). The segment of Scenario D is returned by
    [_split_segment] as it is, and the final duration check of
    [format_subtitles] assigns to its [end_time]: after the call the input
    object ends at 5.1 s and no longer at 5 s. *)
Theorem zero_duration_input_is_modified :
  let tr := transcript [scenario_D] in
  let r := format_subtitles tr reliable 80 7 2 in
  segments tr = [mkSegment 5 5 "hi"]
  /\ store_after r = [mkSegment 5 (5 + (1 # 10)) "hi"]
  /\ ~ (forall l seg, segments tr !! l = Some seg ->
          exists seg', store_after r !! l = Some seg'
                       /\ (end_time seg' == end_time seg)%Q).
Proof.
  split; [reflexivity|]. split; [reflexivity|].
  intros H. destruct (H 0%nat scenario_D eq_refl) as (seg' & Hl & He).
  vm_compute in Hl. injection Hl as <-. vm_compute in He. discriminate.
Qed.

(** ** The splitting arithmetic does not raise under a proper configuration *)


Section NoRaise.
Variables (max_chars max_lines : Z).
Hypothesis max_chars_nonzero : max_chars <> 0.
Hypothesis max_lines_nonzero : max_lines <> 0.






End NoRaise.


(** ** Writing to a file that fails after [k] calls *)



Lemma write_blocks_cues_app mcps ml (todo : list loc) :
  forall h f i done,
    cues (write_blocks mcps ml h f i done todo)
    = (done ++ cues (write_blocks mcps ml h f i [] todo))%list.
Proof.
  induction todo as [|l rest IH]; intros h f i done.
  - simpl. now rewrite app_nil_r.
  - rewrite !write_blocks_cons.
    destruct (h !! l) as [seg|]; [|apply IH].
    cbv zeta.
    match goal with
    | |- context [write_all ?f0 ?ss] =>
        destruct (write_all f0 ss) as [f' [e|]]
    end.
    + reflexivity.
    + rewrite IH. rewrite (IH _ _ _ ([] ++ _)%list).
      now rewrite <- app_assoc.
Qed.






(** ** Start times of the blocks of the character splitter *)



Lemma Forall_filter_bool {A} (P : A -> Prop) (p : A -> bool) (l : list A) :
  Forall P l -> Forall P (List.filter p l).
Proof.
  rewrite !List.Forall_forall. intros H x Hx. apply H.
  now apply filter_In in Hx as [Hx _].
Qed.

Section BlockStarts.
Variables (segment : Segment) (max_chars max_lines : Z).
Variables (time_per_char : Q) (n_words : Z).

Lemma close_block_later (st : block_state) lines processed next_line :
  (current_start_time st
   < current_start_time
       (close_block segment time_per_char st lines processed next_line))%Q.
Proof.
  unfold close_block. cbn [current_start_time].
  destruct (Qle_bool _ _) eqn:E.
  - unfold tenth. lra.
  - now apply Qle_bool_gt in E.
Qed.



End BlockStarts.

Lemma resolve_new (self : Segment) (segs : list Segment) :
  map (resolve self) (map New segs) = segs.
Proof.
  induction segs as [|s segs IH]; simpl; [reflexivity | now rewrite IH].
Qed.


(** ** The order of the written cues *)

(** The objects at the addresses [place] returns are the pieces. *)
Lemma place_spec (ps : list piece) :
  forall h self seg h' ls,
    h !! self = Some seg ->
    place h self ps = (h', ls) ->
    (exists t, h' = (h ++ t)%list)
    /\ Forall2 (fun l s => h' !! l = Some s) ls (map (resolve seg) ps).
Proof.
  induction ps as [|[|s] rest IH]; intros h self seg h' ls Hself H;
    simpl in H.
  - injection H as <- <-. split; [exists []; now rewrite app_nil_r|].
    constructor.
  - destruct (place h self rest) as [h1 ls1] eqn:E.
    injection H as <- <-.
    destruct (IH _ _ _ _ _ Hself E) as ([t ->] & Hrest).
    split; [now exists t|]. simpl. constructor; [|exact Hrest].
    now apply lookup_app_l_Some.
  - destruct (place (h ++ [s])%list self rest) as [h1 ls1] eqn:E.
    injection H as <- <-.
    destruct (IH (h ++ [s])%list self seg _ _
                (lookup_app_l_Some _ _ _ _ Hself) E) as ([t ->] & Hrest).
    split; [exists (s :: t); now rewrite <- app_assoc|].
    simpl. constructor; [|exact Hrest].
    rewrite <- app_assoc. simpl. apply list_lookup_middle. reflexivity.
Qed.

Lemma Forall2_lookup_app (h t : list Segment) (ls : list nat)
    (segs : list Segment) :
  Forall2 (fun l s => h !! l = Some s) ls segs ->
  Forall2 (fun l s => (h ++ t)%list !! l = Some s) ls segs.
Proof.
  intros H. eapply Forall2_impl; [exact H|].
  intros l s Hl. now apply lookup_app_l_Some.
Qed.

Section SplitAll.
Variables (max_chars : Z) (max_duration : Q) (max_lines : Z).

Lemma pieces_at_app (h t : list Segment) (todo : list nat) :
  Forall (fun l => (l < length h)%nat) todo ->
  flat_map (pieces_at max_chars max_duration max_lines (h ++ t)%list) todo
  = flat_map (pieces_at max_chars max_duration max_lines h) todo.
Proof.
  induction todo as [|l rest IH]; intros Hv; simpl; [reflexivity|].
  inversion Hv; subst. rewrite IH by assumption.
  unfold pieces_at at 1 3. now rewrite lookup_app_l.
Qed.

Lemma split_all_spec (todo : list nat) :
  forall h h' formatted,
    Forall (fun l => (l < length h)%nat) todo ->
    split_all max_chars max_duration max_lines h todo
    = (h', inl formatted) ->
    Forall2 (fun l s => h' !! l = Some s) formatted
      (flat_map (pieces_at max_chars max_duration max_lines h) todo).
Proof.
  induction todo as [|l rest IH]; intros h h' formatted Hv H; simpl in H.
  - injection H as <- <-. constructor.
  - inversion Hv as [|? ? Hl Hrest]; subst.
    simpl. unfold pieces_at at 1.
    destruct (h !! l) as [seg|] eqn:El; [|now apply IH].
    destruct (_split_segment seg max_chars max_duration max_lines)
      as [ps|e]; [|discriminate].
    destruct (place h l ps) as [h1 ls] eqn:Ep.
    destruct (place_spec ps h l seg h1 ls El Ep) as ([t1 ->] & Hls).
    destruct (split_all max_chars max_duration max_lines (h ++ t1)%list rest)
      as [h2 [ls'|e]] eqn:Es; [|discriminate].
    injection H as <- <-.
    destruct (split_all_extends max_chars max_duration max_lines rest
                (h ++ t1)%list) as [t2 Ht2].
    rewrite Es in Ht2. simpl in Ht2. subst h2.
    apply Forall2_app.
    + now apply Forall2_lookup_app.
    + rewrite <- (pieces_at_app h t1 rest Hrest).
      apply (IH (h ++ t1)%list); [|exact Es].
      eapply Forall_impl; [exact Hrest|].
      intros x Hx. rewrite length_app. simpl in *. lia.
Qed.

Lemma pieces_at_seq (pre suf : list Segment) :
  flat_map (pieces_at max_chars max_duration max_lines (pre ++ suf)%list)
    (seq (length pre) (length suf))
  = flat_map
      (fun seg =>
         pieces seg (_split_segment seg max_chars max_duration max_lines))
      suf.
Proof.
  revert pre. induction suf as [|x suf IH]; intros pre; simpl;
    [reflexivity|].
  unfold pieces_at at 1.
  rewrite list_lookup_middle by reflexivity. f_equal.
  specialize (IH (pre ++ [x])%list).
  rewrite <- app_assoc, length_app in IH. simpl in IH.
  now rewrite Nat.add_1_r in IH.
Qed.

Lemma pieces_at_all (h : list Segment) :
  flat_map (pieces_at max_chars max_duration max_lines h) (seq 0 (length h))
  = flat_map
      (fun seg =>
         pieces seg (_split_segment seg max_chars max_duration max_lines))
      h.
Proof. exact (pieces_at_seq [] h). Qed.
End SplitAll.



(** ** Lengths of joined words *)

Lemma join_cons (sep x : string) (xs : list string) :
  join sep (x :: xs)
  = match xs with
    | [] => x
    | _ :: _ => (x ++ sep ++ join sep xs)%string
    end.
Proof. now destruct xs. Qed.

Lemma len_join_cons_le (sep x : string) (xs : list string) :
  len (join sep (x :: xs)) <= len x + len sep + len (join sep xs).
Proof.
  rewrite join_cons. destruct xs as [|y ys].
  - unfold len. simpl. lia.
  - rewrite !len_append. lia.
Qed.

Lemma len_join_tail (sep x : string) (xs : list string) :
  len (join sep xs) <= len (join sep (x :: xs)).
Proof.
  rewrite join_cons. destruct xs as [|y ys].
  - unfold len. simpl. lia.
  - rewrite !len_append. unfold len. lia.
Qed.

Lemma len_join_head (sep x : string) (xs : list string) :
  len x <= len (join sep (x :: xs)).
Proof.
  rewrite join_cons. destruct xs as [|y ys]; [lia|].
  rewrite !len_append. unfold len. lia.
Qed.

Lemma len_join_take (sep : string) (xs : list string) :
  forall k, len (join sep (take k xs)) <= len (join sep xs).
Proof.
  induction xs as [|x xs IH]; intros [|k]; simpl take;
    try (unfold len; simpl; lia).
  specialize (IH k). rewrite (join_cons sep x xs).
  rewrite (join_cons sep x (take k xs)).
  destruct xs as [|y ys]; [now destruct k|].
  destruct (take k (y :: ys)) as [|z zs] eqn:E.
  - rewrite !len_append. unfold len. lia.
  - rewrite !len_append. lia.
Qed.

Lemma len_join_drop (sep : string) (xs : list string) :
  forall k, len (join sep (drop k xs)) <= len (join sep xs).
Proof.
  induction xs as [|x xs IH]; intros [|k]; simpl drop; try lia.
  specialize (IH k). pose proof (len_join_tail sep x xs). lia.
Qed.

Lemma len_join_slice (sep : string) (xs : list string) (a b : Z) :
  len (join sep (slice xs a b)) <= len (join sep xs).
Proof.
  unfold slice.
  pose proof (len_join_take sep (drop (Z.to_nat a) xs)
                (Z.to_nat b - Z.to_nat a)).
  pose proof (len_join_drop sep xs (Z.to_nat a)). lia.
Qed.

(** The words of a text, joined by single spaces, are not longer than the
    text. *)
Lemma len_join_split_from (s : string) :
  forall cur, len (join " " (split_from cur s)) <= len cur + len s.
Proof.
  induction s as [|c rest IH]; intros cur; simpl split_from.
  - destruct (nonempty cur); unfold len; simpl; lia.
  - assert (Hs : len (String c rest) = 1 + len rest)
      by (unfold len; simpl; lia).
    rewrite Hs. destruct (isspace c).
    + specialize (IH ""). change (len "") with 0 in IH.
      destruct (nonempty cur).
      * pose proof (len_join_cons_le " " cur (split_from "" rest)) as Hc.
        change (len " ") with 1 in Hc. lia.
      * pose proof (len_nonempty cur). unfold len in *. lia.
    + specialize (IH (cur ++ String c "")%string).
      rewrite len_append in IH. change (len (String c "")) with 1 in IH.
      lia.
Qed.

Lemma len_join_split_ws (s : string) : len (join " " (split_ws s)) <= len s.
Proof.
  pose proof (len_join_split_from s ""). change (len "") with 0 in H.
  unfold split_ws. lia.
Qed.

(** ** Start times of the chunks of the duration splitter *)

Section Chunks.
Variables (segment : Segment) (words : list string).
Variables (num_splits_duration words_per_split : Z) (split_duration : Q).
Hypothesis split_duration_pos : (0 < split_duration)%Q.
Hypothesis words_short : len (join " " words) <= len (text segment).


End Chunks.

(** Chunks and segments that fit a block are returned as they are. *)
Lemma split_segment_by_chars_short (segment : Segment)
    (max_chars max_lines : Z) :
  len (text segment) <= max_chars ->
  _split_segment_by_chars segment max_chars max_lines = inl [Same].
Proof.
  intros H. unfold _split_segment_by_chars.
  apply Z.leb_le in H. now rewrite H.
Qed.

Lemma split_each_short (segs : list Segment) (max_chars max_lines : Z) :
  Forall (fun c => len (text c) <= max_chars) segs ->
  split_each segs max_chars max_lines = inl (map New segs).
Proof.
  induction segs as [|seg rest IH]; intros H; [reflexivity|].
  inversion H; subst. simpl.
  rewrite split_segment_by_chars_short by assumption.
  cbn [bind ret]. rewrite IH by assumption. reflexivity.
Qed.








(** * Further properties of the formatter *)

(** ** Words of joined and of wrapped text *)

(** Whitespace between two texts separates their words. *)
Lemma split_from_space (c : ascii) (b : string) :
  isspace c = true ->
  forall a cur,
    split_from cur (a ++ String c b)%string
    = (split_from cur a ++ split_ws b)%list.
Proof.
  intros Hc. induction a as [|d a IH]; intros cur; simpl.
  - rewrite Hc. now destruct (nonempty cur).
  - destruct (isspace d); [|apply IH].
    destruct (nonempty cur); simpl; now rewrite IH.
Qed.

Lemma split_ws_space (c : ascii) (a b : string) :
  isspace c = true ->
  split_ws (a ++ String c b)%string = (split_ws a ++ split_ws b)%list.
Proof. intros Hc. now apply split_from_space. Qed.

Lemma split_from_no_space (w : string) :
  no_space w = true ->
  forall cur,
    split_from cur w
    = if nonempty (cur ++ w)%string then [(cur ++ w)%string] else [].
Proof.
  induction w as [|c w IH]; intros Hw cur; simpl in *.
  - now rewrite append_empty_r.
  - apply andb_true_iff in Hw as [Hc Hw].
    apply negb_true_iff in Hc. rewrite Hc, (IH Hw), append_snoc.
    reflexivity.
Qed.

Lemma split_ws_word (w : string) : is_word w = true -> split_ws w = [w].
Proof.
  unfold is_word. intros [Hn Hs]%andb_true_iff.
  unfold split_ws. rewrite (split_from_no_space w Hs). simpl. now rewrite Hn.
Qed.

Lemma split_ws_empty : split_ws "" = [].
Proof. reflexivity. Qed.

(** Words joined by one whitespace character are split into themselves. *)
Lemma split_ws_join (c : ascii) (ws : list string) :
  isspace c = true ->
  Forall (fun w => is_word w = true) ws ->
  split_ws (join (String c "") ws) = ws.
Proof.
  intros Hc. induction ws as [|w ws IH]; intros Hws; [reflexivity|].
  inversion Hws as [|? ? Hw Hrest]; subst.
  rewrite join_cons. destruct ws as [|w' ws'].
  - now apply split_ws_word.
  - change (w ++ String c "" ++ join (String c "") (w' :: ws'))%string
      with (w ++ String c (join (String c "") (w' :: ws')))%string.
    rewrite (split_ws_space c _ _ Hc), (split_ws_word w Hw), (IH Hrest).
    reflexivity.
Qed.

(** The lines of a text have the words of the text. *)
Lemma split_on_from_newline_words (s : string) :
  forall cur,
    flat_map split_ws (split_on_from newline cur s)
    = split_ws (cur ++ s)%string.
Proof.
  induction s as [|c rest IH]; intros cur; cbn [split_on_from].
  - cbn [flat_map]. now rewrite app_nil_r, append_empty_r.
  - destruct (Ascii.eqb c newline) eqn:E.
    + apply Ascii.eqb_eq in E. subst c. cbn [flat_map]. rewrite (IH "").
      now rewrite (split_ws_space newline cur rest eq_refl).
    + rewrite IH. now rewrite append_snoc.
Qed.

Lemma split_on_newline_words (s : string) :
  flat_map split_ws (split_on newline s) = split_ws s.
Proof. exact (split_on_from_newline_words s ""). Qed.

(** ** The written cues are the cues of the pieces *)

Lemma ensure_duration_text_eq (seg : Segment) :
  text (ensure_duration seg) = text seg.
Proof. unfold ensure_duration. now destruct (needs_padding seg). Qed.

Lemma ensure_duration_idem (seg : Segment) :
  ensure_duration (ensure_duration seg) = ensure_duration seg.
Proof. apply ensure_duration_id, ensure_duration_positive. Qed.

(** The list of cues formatted so far is only carried along. *)
Lemma write_blocks_done mcps ml (todo : list nat) :
  forall h f i done,
    raised (write_blocks mcps ml h f i done todo)
    = raised (write_blocks mcps ml h f i [] todo)
    /\ output (write_blocks mcps ml h f i done todo)
       = output (write_blocks mcps ml h f i [] todo)
    /\ store_after (write_blocks mcps ml h f i done todo)
       = store_after (write_blocks mcps ml h f i [] todo).
Proof.
  induction todo as [|l rest IH]; intros h f i done; [now repeat split|].
  rewrite !write_blocks_cons.
  destruct (h !! l) as [seg|]; [|apply IH]. cbv zeta.
  match goal with
  | |- context [write_all ?f0 ?ss] =>
      destruct (write_all f0 ss) as [f' [e|]]
  end; [now repeat split|].
  destruct (IH (if needs_padding seg
                then <[l:=ensure_duration seg]> h else h) f' (i + 1)
              (done ++ [{| cue_index := i;
                           cue_start := start_time (ensure_duration seg);
                           cue_end := end_time (ensure_duration seg);
                           cue_lines := block_lines mcps ml (text seg) |}])%list)
    as (H1 & H2 & H3).
  destruct (IH (if needs_padding seg
                then <[l:=ensure_duration seg]> h else h) f' (i + 1)
              ([] ++ [{| cue_index := i;
                         cue_start := start_time (ensure_duration seg);
                         cue_end := end_time (ensure_duration seg);
                         cue_lines := block_lines mcps ml (text seg) |}])%list)
    as (H1' & H2' & H3').
  rewrite H1, H2, H3, H1', H2', H3'. now repeat split.
Qed.

Lemma write_blocks_cues_from mcps ml (todo : list nat) :
  forall h f i segs,
    Forall2 (fun l p => exists s, h !! l = Some s
                                  /\ ensure_duration s = ensure_duration p
                                  /\ text s = text p) todo segs ->
    cues (write_blocks mcps ml h f i [] todo)
      `prefix_of` cues_from mcps ml i segs
    /\ (raised (write_blocks mcps ml h f i [] todo) = None ->
        cues (write_blocks mcps ml h f i [] todo) = cues_from mcps ml i segs).
Proof.
  induction todo as [|l rest IH]; intros h f i segs Hs.
  - inversion Hs; subst. split; [apply prefix_nil | reflexivity].
  - inversion Hs as [|? p ? segs' (s & Hl & Hpad & Htext) Hrest]; subst.
    rewrite write_blocks_cons, Hl. cbv zeta.
    assert (Hcue : {| cue_index := i;
                      cue_start := start_time (ensure_duration s);
                      cue_end := end_time (ensure_duration s);
                      cue_lines := block_lines mcps ml (text s) |}
                   = cue_of mcps ml i p).
    { unfold cue_of. now rewrite Hpad, Htext. }
    rewrite Hcue. cbn [cues_from].
    match goal with
    | |- context [write_all ?f0 ?ss] =>
        destruct (write_all f0 ss) as [f' [e|]]
    end.
    + cbn [cues raised app]. split; [|discriminate].
      apply prefix_cons, prefix_nil.
    + rewrite write_blocks_cues_app. cbn [app].
      match goal with
      | |- context [write_blocks mcps ml ?h' f' (i + 1) [] rest] =>
          destruct (IH h' f' (i + 1) segs') as [Hpre Heq]
      end.
      * eapply Forall2_impl; [exact Hrest|]. cbv beta.
        intros l' p' (s' & Hl' & Hpad' & Htext').
        destruct (needs_padding s); [|now exists s'].
        destruct (decide (l = l')) as [Heql|Hne].
        -- subst l'. assert (s' = s) as -> by congruence.
           exists (ensure_duration s). split.
           ++ apply list_lookup_insert_eq. now apply lookup_lt_Some in Hl.
           ++ rewrite ensure_duration_idem, ensure_duration_text_eq.
              now split.
        -- exists s'. now rewrite list_lookup_insert_ne.
      * split; [now apply prefix_cons|].
        intros Hr. rewrite Heq; [reflexivity|].
        now rewrite <- (proj1 (write_blocks_done mcps ml rest _ f' (i + 1)
                                 [cue_of mcps ml i p])).
Qed.

(** The blocks formatted are the blocks of the pieces. *)
Lemma cues_of_pieces :
  forall (tr : TranscriptionResult) (fs : filesystem)
         (max_chars_per_segment : Z) (max_duration_seconds : Q)
         (max_lines_per_block : Z),
    let r := format_subtitles tr fs max_chars_per_segment
               max_duration_seconds max_lines_per_block in
    let every :=
      cues_from max_chars_per_segment max_lines_per_block 1
        (all_pieces max_chars_per_segment max_duration_seconds
           max_lines_per_block tr) in
    cues r `prefix_of` every /\ (raised r = None -> cues r = every).
Proof.
  intros tr fs mcps md ml. cbv zeta. unfold format_subtitles, all_pieces.
  pose proof (split_all_spec (mcps * ml) md ml
                (seq 0 (length (segments tr))) (segments tr)) as Hspec.
  destruct (split_all _ _ _ _ _) as [h [formatted|e]];
    [|split; [apply prefix_nil | discriminate]].
  specialize (Hspec h formatted).
  destruct (open fs) as [f|e];
    [|split; [apply prefix_nil | discriminate]].
  rewrite pieces_at_all in Hspec.
  apply write_blocks_cues_from.
  eapply Forall2_impl; [apply Hspec; [|reflexivity]|].
  - apply List.Forall_forall. intros l Hl. apply in_seq in Hl. lia.
  - intros l p Hl. now exists p.
Qed.

(** X1. The cue blocks [format_subtitles] formats are, in order, the cue
    blocks of the pieces of the input segments: one block per piece, with
    the piece's start time, its end time after the final duration check, the
    final wrap of its text, and the numbers 1, 2, ... When an exception is
    raised they are the first of these blocks; when none is raised, all of
    them. *)
Theorem written_cues_of_pieces :
  forall (tr : TranscriptionResult) (fs : filesystem)
         (max_chars_per_segment : Z) (max_duration_seconds : Q)
         (max_lines_per_block : Z),
    let r := format_subtitles tr fs max_chars_per_segment
               max_duration_seconds max_lines_per_block in
    let every :=
      cues_from max_chars_per_segment max_lines_per_block 1
        (all_pieces max_chars_per_segment max_duration_seconds
           max_lines_per_block tr) in
    cues r `prefix_of` every /\ (raised r = None -> cues r = every).
Proof. intros. apply cues_of_pieces. Qed.

Lemma cues_from_indices mcps ml (shown : list Cue) :
  forall segs i rest,
    cues_from mcps ml i segs = (shown ++ rest)%list ->
    map cue_index shown
    = map (fun k => i + Z.of_nat k) (seq 0 (length shown)).
Proof.
  induction shown as [|c shown IH]; intros segs i rest H; [reflexivity|].
  destruct segs as [|seg segs]; [discriminate|].
  simpl in H. injection H as <- H.
  cbn [length seq map cue_of cue_index]. f_equal; [lia|].
  rewrite (IH _ _ _ H), <- seq_shift, map_map.
  apply map_ext. intros k. lia.
Qed.

(** X2. The cue blocks are numbered 1, 2, 3, ... in the order they are
    written, whatever the input, the configuration and the fate of the
    file. *)
Theorem cue_indices_count_from_one :
  forall (tr : TranscriptionResult) (fs : filesystem)
         (max_chars_per_segment : Z) (max_duration_seconds : Q)
         (max_lines_per_block : Z),
    let r := format_subtitles tr fs max_chars_per_segment
               max_duration_seconds max_lines_per_block in
    map cue_index (cues r) = map Z.of_nat (seq 1 (length (cues r))).
Proof.
  intros tr fs mcps md ml r.
  destruct (cues_of_pieces tr fs mcps md ml) as [[rest Hpre] _].
  fold r in Hpre.
  rewrite (cues_from_indices mcps ml (cues r) _ 1 rest Hpre).
  rewrite <- seq_shift, map_map. apply map_ext. intros k. lia.
Qed.

(** ** The final wrap keeps the words *)

Lemma wrap_word_words (mcps : Z) (st : wrap_state) (word : string) :
  is_word word = true ->
  (line_len st = 0 -> wrapped_line st = "") ->
  0 <= line_len st ->
  (flat_map split_ws (final_lines (wrap_word mcps st word))
   ++ split_ws (wrapped_line (wrap_word mcps st word)))%list
  = ((flat_map split_ws (final_lines st) ++ split_ws (wrapped_line st))
     ++ [word])%list
  /\ (line_len (wrap_word mcps st word) = 0 ->
      wrapped_line (wrap_word mcps st word) = "")
  /\ 0 <= line_len (wrap_word mcps st word).
Proof.
  intros Hw Hzero Hpos.
  pose proof (len_nonempty _ (is_word_nonempty _ Hw)) as Hlen.
  unfold wrap_word.
  destruct (line_len st =? 0) eqn:E0; [|destruct (_ <=? _)];
    cbn [final_lines wrapped_line line_len].
  - apply Z.eqb_eq in E0. rewrite (Hzero E0). simpl append.
    rewrite (split_ws_word _ Hw), split_ws_empty, app_nil_r.
    repeat split; lia.
  - change (wrapped_line st ++ " " ++ word)%string
      with (wrapped_line st ++ String " " word)%string.
    rewrite (split_ws_space " " _ _ eq_refl), (split_ws_word _ Hw).
    rewrite <- !app_assoc. repeat split; lia.
  - rewrite flat_map_app. cbn [flat_map].
    rewrite (split_ws_word _ Hw), app_nil_r. repeat split; lia.
Qed.

Lemma wrap_words_words (mcps : Z) (words : list string) :
  forall st,
    Forall (fun w => is_word w = true) words ->
    (line_len st = 0 -> wrapped_line st = "") ->
    0 <= line_len st ->
    let st' := fold_left (wrap_word mcps) words st in
    (flat_map split_ws (final_lines st') ++ split_ws (wrapped_line st'))%list
    = ((flat_map split_ws (final_lines st) ++ split_ws (wrapped_line st))
       ++ words)%list.
Proof.
  induction words as [|w ws IH]; intros st Hws Hzero Hpos; cbn [fold_left].
  - now rewrite app_nil_r.
  - inversion Hws; subst.
    destruct (wrap_word_words mcps st w) as (Hstep & Hzero' & Hpos');
      try assumption.
    cbv zeta. rewrite IH by assumption. rewrite Hstep.
    now rewrite <- !app_assoc.
Qed.

Lemma wrap_line_words (mcps : Z) (acc : list string) (line : string) :
  flat_map split_ws (wrap_line mcps acc line)
  = (flat_map split_ws acc ++ split_ws line)%list.
Proof.
  unfold wrap_line. destruct (mcps <? len line).
  - rewrite flat_map_app. cbn [flat_map]. rewrite app_nil_r.
    pose proof (wrap_words_words mcps (split_ws line)
                  {| final_lines := acc; wrapped_line := "";
                     line_len := 0 |}
                  (split_ws_words line) (fun _ => eq_refl)
                  (Z.le_refl 0)) as H.
    cbv zeta in H. rewrite H. cbn [final_lines wrapped_line].
    now rewrite split_ws_empty, app_nil_r.
  - rewrite flat_map_app. cbn [flat_map]. now rewrite app_nil_r.
Qed.

Lemma wrap_lines_from_words (mcps : Z) (lines : list string) :
  forall acc,
    flat_map split_ws (fold_left (wrap_line mcps) lines acc)
    = (flat_map split_ws acc ++ flat_map split_ws lines)%list.
Proof.
  induction lines as [|l ls IH]; intros acc; cbn [fold_left flat_map].
  - now rewrite app_nil_r.
  - now rewrite IH, wrap_line_words, <- app_assoc.
Qed.

(** The words of the wrapped lines of a text are the words of the text. *)
Lemma wrap_lines_words (mcps : Z) (text : string) :
  flat_map split_ws (wrap_lines mcps (split_on newline text))
  = split_ws text.
Proof.
  unfold wrap_lines. rewrite wrap_lines_from_words. cbn [flat_map app].
  apply split_on_newline_words.
Qed.

Lemma flat_map_take_prefix {A B} (f : A -> list B) (l : list A) (n : nat) :
  flat_map f (take n l) `prefix_of` flat_map f l.
Proof.
  exists (flat_map f (drop n l)).
  now rewrite <- flat_map_app, take_drop.
Qed.

Lemma block_lines_words (mcps ml : Z) (text : string) :
  flat_map split_ws (block_lines mcps ml text) `prefix_of` split_ws text
  /\ (Z.of_nat (length (wrap_lines mcps (split_on newline text))) <= ml ->
      flat_map split_ws (block_lines mcps ml text) = split_ws text).
Proof.
  unfold block_lines, prefix_slice. split.
  - pose proof (wrap_lines_words mcps text) as Hall.
    destruct (ml <? 0); rewrite <- Hall; apply flat_map_take_prefix.
  - intros Hfit. destruct (ml <? 0) eqn:E; [apply Z.ltb_lt in E; lia|].
    rewrite firstn_all2 by lia. apply wrap_lines_words.
Qed.

(** X3. The final wrap neither changes, reorders nor repeats words: the
    words a written cue block shows are the first words of its piece, and
    all of them when the wrapped text has at most [max_lines_per_block]
    lines. Words are lost only from the end, by the cut. *)
Theorem shown_words_are_first_words :
  forall (tr : TranscriptionResult) (fs : filesystem)
         (max_chars_per_segment : Z) (max_duration_seconds : Q)
         (max_lines_per_block : Z),
    let r := format_subtitles tr fs max_chars_per_segment
               max_duration_seconds max_lines_per_block in
    raised r = None ->
    Forall2
      (fun c piece =>
         cue_words c `prefix_of` split_ws (text piece)
         /\ (Z.of_nat (length (wrap_lines max_chars_per_segment
                                 (split_on newline (text piece))))
             <= max_lines_per_block ->
             cue_words c = split_ws (text piece)))
      (cues r)
      (all_pieces max_chars_per_segment max_duration_seconds
         max_lines_per_block tr).
Proof.
  intros tr fs mcps md ml r Hr.
  destruct (cues_of_pieces tr fs mcps md ml) as [_ Heq].
  fold r in Heq. rewrite (Heq Hr). clear.
  generalize 1. induction (all_pieces mcps md ml tr) as [|p ps IH];
    intros i; cbn [cues_from]; constructor; [|apply IH].
  unfold cue_words. cbn [cue_of cue_lines]. apply block_lines_words.
Qed.

Lemma shown_words_are_first_words_witness :
  let tr := transcript [scenario_B; mkSegment 20 22 "Hello world"] in
  Forall2
    (fun c piece =>
       cue_words c `prefix_of` split_ws (text piece)
       /\ (Z.of_nat (length (wrap_lines 80 (split_on newline (text piece))))
           <= 2 ->
           cue_words c = split_ws (text piece)))
    (cues (format_subtitles tr reliable 80 7 2))
    (all_pieces 80 7 2 tr).
Proof.
  apply (shown_words_are_first_words
           (transcript [scenario_B; mkSegment 20 22 "Hello world"])
           reliable 80 7 2).
  vm_compute. reflexivity.
Defined.

(** ** What the file holds *)

Lemma write_all_written (ss : list string) :
  forall f f' e,
    write_all f ss = (f', e) ->
    (exists k, written f' = written f ++ take k ss)%list
    /\ (e = None -> written f' = (written f ++ ss)%list).
Proof.
  induction ss as [|s rest IH]; intros f f' e H; cbn [write_all] in H.
  - inversion H; subst. split; [exists O|]; now rewrite ?app_nil_r.
  - destruct (write f s) as [f1|e1] eqn:Hw.
    + destruct (IH _ _ _ H) as [[k Hk] Hall].
      assert (Hf1 : written f1 = (written f ++ [s])%list).
      { unfold write in Hw.
        destruct (capacity f) as [[|c]|]; inversion Hw; reflexivity. }
      rewrite Hf1, <- app_assoc in Hk, Hall. split; [|exact Hall].
      exists (S k). exact Hk.
    + inversion H; subst. split; [|discriminate].
      exists O. now rewrite app_nil_r.
Qed.

Lemma write_blocks_output mcps ml (todo : list nat) :
  forall h f i,
    let r := write_blocks mcps ml h f i [] todo in
    exists tail,
      output r = (written f ++ tail)%list
      /\ tail `prefix_of` flat_map render (cues r)
      /\ (raised r = None -> tail = flat_map render (cues r))
      /\ flat_map render (removelast (cues r)) `prefix_of` tail.
Proof.
  induction todo as [|l rest IH]; intros h f i; cbv zeta.
  - exists []. cbn [write_blocks output cues removelast flat_map].
    rewrite app_nil_r. repeat split; reflexivity.
  - rewrite write_blocks_cons. destruct (h !! l) as [seg|]; [|apply IH].
    cbv zeta.
    match goal with
    | |- context [write_all f (render ?c0)] =>
        set (c := c0);
        destruct (write_all f (render c)) as [f' [e|]] eqn:Hw
    end.
    + destruct (write_all_written _ _ _ _ Hw) as [[k Hk] _].
      exists (take k (render c)).
      cbn [output cues raised app removelast flat_map].
      rewrite app_nil_r. repeat split.
      * exact Hk.
      * apply prefix_take.
      * discriminate.
      * apply prefix_nil.
    + destruct (write_all_written _ _ _ _ Hw) as [_ Hall].
      specialize (Hall eq_refl).
      match goal with
      | |- context [write_blocks mcps ml ?h' f' (i + 1) _ rest] =>
          destruct (IH h' f' (i + 1)) as (tail & Hout & Hpre & Heq & Hbut);
          destruct (write_blocks_done mcps ml rest h' f' (i + 1)
                      ([] ++ [c])%list) as (Hr & Ho & _);
          pose proof (write_blocks_cues_app mcps ml rest h' f' (i + 1)
                        ([] ++ [c])%list) as Hc
      end.
      cbv zeta in Hout, Hpre, Heq, Hbut.
      rewrite Hr, Ho, Hc. cbn [app flat_map].
      exists (render c ++ tail)%list. repeat split.
      * now rewrite Hout, Hall, <- app_assoc.
      * now apply prefix_app.
      * intros Hnone. now rewrite (Heq Hnone).
      * destruct (cues (write_blocks mcps ml _ f' (i + 1) [] rest))
          as [|c1 cs] eqn:Hcs.
        -- apply prefix_nil.
        -- change (removelast (c :: c1 :: cs))
             with (c :: removelast (c1 :: cs)).
           cbn [flat_map]. now apply prefix_app.
Qed.

(** X4. The file holds the formatted cue blocks, three strings per block
    (index, time line, text) in the order of the blocks: all of them when
    nothing is raised, and otherwise a leading part in which every block but
    the last is complete. *)
Theorem output_is_rendered_cues :
  forall (tr : TranscriptionResult) (fs : filesystem)
         (max_chars_per_segment : Z) (max_duration_seconds : Q)
         (max_lines_per_block : Z),
    let r := format_subtitles tr fs max_chars_per_segment
               max_duration_seconds max_lines_per_block in
    output r `prefix_of` flat_map render (cues r)
    /\ (raised r = None -> output r = flat_map render (cues r))
    /\ flat_map render (removelast (cues r)) `prefix_of` output r.
Proof.
  intros tr fs mcps md ml. unfold format_subtitles. cbv zeta.
  destruct (split_all _ _ _ _ _) as [h [ls|e]].
  - unfold open. destruct (can_open fs); cbn [ret raise].
    + match goal with
      | |- context [write_blocks mcps ml h ?f0 1 [] ls] =>
          destruct (write_blocks_output mcps ml ls h f0 1)
            as (tail & Hout & Hpre & Heq & Hbut)
      end.
      cbv zeta in Hout, Hpre, Heq, Hbut. cbn [written app] in Hout.
      rewrite Hout. repeat split; assumption.
    + cbn [output cues raised flat_map removelast].
      repeat split; try discriminate; apply prefix_nil.
  - cbn [output cues raised flat_map removelast].
    repeat split; try discriminate; apply prefix_nil.
Qed.

(** ** The words of the duration splitter *)

Lemma nonempty_len (s : string) : 1 <= len s -> nonempty s = true.
Proof. destruct s; [unfold len; simpl; lia | reflexivity]. Qed.

Lemma join_words_nonempty (sep : string) (ws : list string) :
  Forall (fun w => is_word w = true) ws ->
  nonempty (join sep ws) = false -> ws = [].
Proof.
  intros Hws H. destruct ws as [|w ws]; [reflexivity|].
  inversion Hws as [|? ? Hw _]; subst. apply is_word_nonempty in Hw.
  rewrite join_cons in H. destruct w; [discriminate|].
  destruct ws; discriminate.
Qed.

Lemma take_slice {A} (xs : list A) (a b : Z) :
  0 <= a <= b ->
  take (Z.to_nat b) xs = (take (Z.to_nat a) xs ++ slice xs a b)%list.
Proof.
  intros H. unfold slice.
  replace (Z.to_nat b) with (Z.to_nat a + (Z.to_nat b - Z.to_nat a))%nat
    at 1 by lia.
  generalize (Z.to_nat b - Z.to_nat a)%nat as k.
  generalize (Z.to_nat a) as n. clear.
  intros n. revert xs. induction n as [|n IH]; intros xs k.
  - reflexivity.
  - destruct xs as [|x xs]; [now destruct k|].
    cbn [Nat.add take drop skipn firstn app]. now rewrite <- IH.
Qed.

Lemma words_of_snoc (segs : list Segment) (seg : Segment) :
  words_of (segs ++ [seg]) = (words_of segs ++ split_ws (text seg))%list.
Proof.
  unfold words_of. rewrite flat_map_app. cbn [flat_map].
  now rewrite app_nil_r.
Qed.

Section ChunkWords.
Variables (segment : Segment) (words : list string).
Variables (num_splits_duration words_per_split : Z) (split_duration : Q).
Hypothesis words_are_words : Forall (fun w => is_word w = true) words.
Hypothesis words_per_split_nonneg : 0 <= words_per_split.

Lemma split_chunk_words (st : chunk_state) (i : Z) :
  chunk_words_inv words st ->
  let st' := split_chunk segment words num_splits_duration words_per_split
               split_duration st i in
  chunk_words_inv words st'
  /\ (num_splits_duration - 1 <= i ->
      start_word_idx st' = Z.of_nat (length words)).
Proof using words_are_words words_per_split_nonneg.
  intros (Hidx & Hwords & Hlen). unfold split_chunk.
  set (e := if i <? num_splits_duration - 1
            then Z.min (start_word_idx st + words_per_split)
                   (Z.of_nat (length words))
            else Z.of_nat (length words)).
  assert (He : start_word_idx st <= e <= Z.of_nat (length words)
               /\ (num_splits_duration - 1 <= i ->
                   e = Z.of_nat (length words))).
  { subst e. destruct (i <? num_splits_duration - 1) eqn:E.
    - apply Z.ltb_lt in E. lia.
    - lia. }
  clearbody e. destruct He as [He Hlast].
  assert (Hsl : Forall (fun w => is_word w = true)
                  (slice words (start_word_idx st) e)).
  { unfold slice. now apply Forall_take, Forall_drop. }
  destruct (nonempty (join " " (slice words (start_word_idx st) e))) eqn:E;
    cbv zeta.
  - cbn [start_word_idx chunks]. split; [|exact Hlast].
    unfold chunk_words_inv. cbn [start_word_idx chunks].
    split; [lia|]. split.
    + rewrite words_of_snoc, Hwords. cbn [text].
      rewrite (split_ws_join " "%char _ eq_refl Hsl).
      symmetry. apply take_slice. lia.
    + apply Forall_app. split; [exact Hlen|].
      constructor; [|constructor]. cbn [text]. apply len_join_slice.
  - split; [now repeat split|]. intros Hi.
    pose proof (join_words_nonempty _ _ Hsl E) as Hnil.
    rewrite (Hlast Hi) in Hnil. unfold slice in Hnil.
    apply (f_equal (@length string)) in Hnil.
    rewrite length_take, length_drop in Hnil. cbn [length] in Hnil. lia.
Qed.

Lemma for_range_words (count : nat) :
  forall (i : Z) (st : chunk_state),
    chunk_words_inv words st ->
    let st' := for_range
                 (split_chunk segment words num_splits_duration
                    words_per_split split_duration)
                 count i st in
    chunk_words_inv words st'
    /\ ((1 <= count)%nat ->
        i + Z.of_nat count = num_splits_duration ->
        start_word_idx st' = Z.of_nat (length words)).
Proof using words_are_words words_per_split_nonneg.
  induction count as [|count IH]; intros i st Hst; cbv zeta.
  - split; [exact Hst | lia].
  - cbn [for_range].
    destruct (split_chunk_words st i Hst) as [Hst1 Hlast1].
    destruct (IH (i + 1) _ Hst1) as [Hst' Hlast'].
    split; [exact Hst'|]. intros _ Hn.
    destruct count as [|count'].
    + cbn [for_range]. apply Hlast1. lia.
    + apply Hlast'; lia.
Qed.
End ChunkWords.



(** ** The blocks of the character splitter follow one another *)

Lemma chained_snoc (segs : list Segment) :
  forall t s,
    chained t segs -> start_time s = last_end t segs ->
    chained t (segs ++ [s]).
Proof.
  induction segs as [|a segs IH]; intros t s Hc Hs; cbn [app chained].
  - now split.
  - destruct Hc as [Ha Hrest]. split; [exact Ha|]. now apply IH.
Qed.

Lemma last_end_snoc (segs : list Segment) (t : Q) (s : Segment) :
  last_end t (segs ++ [s]) = end_time s.
Proof. unfold last_end. now rewrite fold_left_app. Qed.

Lemma filter_all {A} (p : A -> bool) (l : list A) :
  Forall (fun x => p x = true) l -> List.filter p l = l.
Proof.
  induction 1 as [|x l Hx _ IH]; cbn [List.filter]; [reflexivity|].
  now rewrite Hx, IH.
Qed.

Lemma join_snoc_nonempty (sep : string) (lines : list string)
    (line : string) :
  nonempty line = true -> nonempty (join sep (lines ++ [line])) = true.
Proof.
  intros H. induction lines as [|a lines IH]; [exact H|].
  change ((a :: lines) ++ [line])%list with (a :: (lines ++ [line]))%list.
  rewrite join_cons. destruct (lines ++ [line])%list eqn:E.
  - now destruct lines.
  - apply nonempty_len. rewrite !len_append.
    apply len_nonempty in IH. unfold len in *. lia.
Qed.

Section BlockChain.
Variables (segment : Segment) (max_chars max_lines : Z).
Variables (time_per_char : Q) (n_words : Z).

Lemma close_block_chain (st : block_state) lines line processed next_line :
  nonempty line = true ->
  blocks_inv segment st ->
  blocks_inv segment
    (close_block segment time_per_char st (lines ++ [line])%list processed
       next_line).
Proof.
  intros Hline (Hchain & Hlast & Hkeep).
  pose proof (close_block_later segment time_per_char st
                (lines ++ [line])%list processed next_line) as Hlater.
  pose proof (join_snoc_nonempty nl lines line Hline) as Htext.
  unfold close_block in *. cbn [current_start_time] in Hlater.
  unfold blocks_inv. cbn [split_segments current_start_time].
  split; [|split].
  - apply chained_snoc; [exact Hchain | now rewrite Hlast].
  - now rewrite last_end_snoc.
  - apply Forall_app. split; [exact Hkeep|].
    constructor; [|constructor].
    unfold keep_segment. cbn [text start_time end_time].
    rewrite Htext. cbn [andb]. now apply Qltb_lt.
Qed.

Lemma split_word_chain (st st' : block_state) (i : Z) (word : string) :
  nonempty word = true ->
  split_word segment max_chars max_lines time_per_char n_words st i word
  = inl st' ->
  blocks_inv segment st -> blocks_inv segment st'.
Proof.
  unfold split_word. intros Hword H Hst.
  destruct (floordiv max_chars max_lines) as [per_line|e] eqn:Ediv;
    [|destruct (max_chars <? _); discriminate].
  set (mid := if nonempty (current_line st)
              then close_block segment time_per_char st
                     (lines_in_block st ++ [current_line st])%list
                     (processed_chars st) word
              else with_line st word) in *.
  assert (Hmid : blocks_inv segment mid /\ current_line mid = word).
  { subst mid. destruct (nonempty (current_line st)) eqn:E.
    - split; [now apply close_block_chain | reflexivity].
    - split; [exact Hst | reflexivity]. }
  destruct Hmid as [Hmid Hcur]. clearbody mid.
  destruct (max_chars <? _); cbn [bind] in H.
  - destruct (per_line <? _).
    + destruct (_ || _); injection H as <-; [|exact Hmid].
      apply close_block_chain; [now rewrite Hcur | exact Hmid].
    + injection H as <-. exact Hmid.
  - destruct (_ && _); injection H as <-; exact Hst.
Qed.

Lemma for_words_chain (words : list string) :
  forall i st st',
    Forall (fun w => is_word w = true) words ->
    for_words (split_word segment max_chars max_lines time_per_char n_words)
      i words st = inl st' ->
    blocks_inv segment st -> blocks_inv segment st'.
Proof.
  induction words as [|w ws IH]; intros i st st' Hws H Hst; simpl in H.
  - now injection H as <-.
  - inversion Hws as [|? ? Hw Hrest]; subst.
    destruct (split_word _ _ _ _ _ st i w) as [st1|e] eqn:E1;
      [|discriminate].
    cbn [bind] in H. eapply IH; [exact Hrest | exact H|].
    eapply split_word_chain; eauto. now apply is_word_nonempty.
Qed.
End BlockChain.

(** X6. The blocks [_split_segment_by_chars] returns follow one another
    without gap or overlap: the first one starts at the start of the
    segment and every other one where the block before it ends. (Of the
    blocks the loop builds, the final filter can drop only the last.) *)
Theorem char_blocks_follow_one_another :
  forall (segment : Segment) (max_chars max_lines : Z),
    chained (start_time segment)
      (pieces segment (_split_segment_by_chars segment max_chars max_lines)).
Proof.
  intros segment max_chars max_lines.
  destruct (_split_segment_by_chars segment max_chars max_lines)
    as [ps|e] eqn:H; [|exact I].
  unfold pieces. unfold _split_segment_by_chars in H.
  assert (Hsame : chained (start_time segment)
                    (map (resolve segment) [Same])) by (simpl; now split).
  destruct (len (text segment) <=? max_chars); [now injection H as <-|].
  pose proof (split_ws_words (text segment)) as Hws.
  destruct (split_ws (text segment)) as [|w ws]; [now injection H as <-|].
  destruct (floordiv (len (text segment)) max_chars) as [q|e];
    [|discriminate].
  cbn [bind ret] in H.
  match type of H with
  | context [for_words ?b ?i ?wl ?st0] =>
      destruct (for_words b i wl st0) as [st|e] eqn:Eloop; [|discriminate];
      assert (Hinv : blocks_inv segment st)
  end.
  { eapply for_words_chain; [exact Hws | exact Eloop|].
    unfold blocks_inv. cbn [split_segments current_start_time chained].
    repeat split. constructor. }
  cbn [bind ret] in H. injection H as <-.
  rewrite resolve_new.
  destruct Hinv as (Hchain & Hlast & Hkeep).
  destruct (if nonempty (current_line st)
            then (lines_in_block st ++ [current_line st])%list
            else lines_in_block st).
  - now rewrite filter_all.
  - rewrite List.filter_app, filter_all by exact Hkeep.
    cbn [List.filter]. destruct (keep_segment _).
    + apply chained_snoc; [exact Hchain | now rewrite Hlast].
    + now rewrite app_nil_r.
Qed.

(** ** How long the pieces last *)



Section BlockDurations.
Variables (segment : Segment) (max_chars max_lines : Z).
Variables (time_per_char : Q) (n_words : Z) (B : Q).
Hypothesis tenth_below : (tenth <= B)%Q.
Hypothesis segment_below : (end_time segment - start_time segment <= B)%Q.



End BlockDurations.






Lemma Forall_prefix {A} (P : A -> Prop) (l1 l2 : list A) :
  l1 `prefix_of` l2 -> Forall P l2 -> Forall P l1.
Proof. intros [k ->] H. now apply Forall_app in H as [H _]. Qed.

Lemma Forall_cues_from (P : Cue -> Prop) mcps ml (segs : list Segment) :
  forall i,
    Forall (fun seg => forall j, P (cue_of mcps ml j seg)) segs ->
    Forall P (cues_from mcps ml i segs).
Proof.
  induction segs as [|seg rest IH]; intros i H; cbn [cues_from];
    inversion H; subst; constructor; auto.
Qed.



(** ** A long segment with enough words is tiled *)

Section Tiles.
Variables (segment : Segment) (words : list string).
Variables (n wps : Z) (sd : Q).
Hypothesis words_are_words : Forall (fun w => is_word w = true) words.
Hypothesis words_each : 1 <= wps.
Hypothesis words_enough : n * wps <= Z.of_nat (length words).
Hypothesis sd_pos : (0 < sd)%Q.
Hypothesis sd_covers :
  (start_time segment + inject_Z n * sd == end_time segment)%Q.

Lemma split_chunk_tile (st : chunk_state) (i : Z) :
  0 <= i < n ->
  tile_inv segment n wps sd i st ->
  tile_inv segment n wps sd (i + 1)
    (split_chunk segment words n wps sd st i).
Proof using words_are_words words_each words_enough sd_pos sd_covers.
  intros Hi (Hcount & Hidx & Htime & Hchain & Hlast & Hdur).
  specialize (Hidx ltac:(lia)). unfold split_chunk.
  set (e := if i <? n - 1
            then Z.min (start_word_idx st + wps) (Z.of_nat (length words))
            else Z.of_nat (length words)).
  assert (He : start_word_idx st < e <= Z.of_nat (length words)
               /\ (i + 1 <= n - 1 -> e = (i + 1) * wps)).
  { subst e. destruct (i <? n - 1) eqn:E.
    - apply Z.ltb_lt in E. nia.
    - apply Z.ltb_ge in E. nia. }
  clearbody e. destruct He as [He Hnext].
  assert (Htext : nonempty (join " " (slice words (start_word_idx st) e))
                  = true).
  { destruct (nonempty _) eqn:E; [reflexivity|]. exfalso.
    apply join_words_nonempty in E.
    - apply (f_equal (@length string)) in E. unfold slice in E.
      rewrite length_take, length_drop in E. cbn [length] in E. nia.
    - unfold slice. now apply Forall_take, Forall_drop. }
  rewrite Htext.
  assert (Hfit : (current_time st + sd <= end_time segment)%Q).
  { rewrite <- sd_covers, Htime.
    assert (Hle : (inject_Z (i + 1) <= inject_Z n)%Q)
      by (rewrite <- Zle_Qle; lia).
    rewrite inject_Z_plus in Hle. change (inject_Z 1) with 1%Q in Hle.
    nra. }
  assert (Emin : qmin (current_time st + sd) (end_time segment)
                 = (current_time st + sd)%Q).
  { unfold qmin. now rewrite (proj2 (Qltb_ge _ _) Hfit). }
  rewrite Emin.
  assert (Epad : Qle_bool (current_time st + sd) (current_time st) = false)
    by (apply Qle_bool_gt; lra).
  rewrite Epad. unfold tile_inv. cbn [chunks current_time start_word_idx].
  split; [|split; [|split; [|split; [|split]]]].
  - rewrite length_app. cbn [length]. lia.
  - exact Hnext.
  - rewrite Htime, inject_Z_plus. change (inject_Z 1) with 1%Q. ring.
  - apply chained_snoc; [exact Hchain | now rewrite Hlast].
  - now rewrite last_end_snoc.
  - apply Forall_app. split; [exact Hdur|].
    constructor; [|constructor]. unfold duration.
    cbn [start_time end_time]. ring.
Qed.

Lemma for_range_tile (count : nat) :
  forall (i : Z) (st : chunk_state),
    0 <= i -> i + Z.of_nat count <= n ->
    tile_inv segment n wps sd i st ->
    tile_inv segment n wps sd (i + Z.of_nat count)
      (for_range (split_chunk segment words n wps sd) count i st).
Proof using words_are_words words_each words_enough sd_pos sd_covers.
  induction count as [|count IH]; intros i st Hi Hn Hst.
  - cbn [for_range]. now rewrite Z.add_0_r.
  - cbn [for_range].
    replace (i + Z.of_nat (S count)) with (i + 1 + Z.of_nat count) by lia.
    apply IH; [lia | lia|]. apply split_chunk_tile; [lia | exact Hst].
Qed.
End Tiles.

(** X8. A long segment with enough words is cut into equal parts that tile
    its time: for a positive [max_duration], a text of at most [max_chars]
    characters, a duration above 1.5 times [max_duration] and at least
    [n = int(duration // max_duration) + 1] words, [_split_segment] returns
    exactly [n] pieces of [duration / n] seconds each; the first starts at
    the start of the segment, each next one where the one before it ends,
    and the last ends at the end of the segment. *)
Theorem long_segment_is_tiled :
  forall (seg : Segment) (max_chars : Z) (max_duration : Q) (max_lines : Z),
    (0 < max_duration)%Q ->
    len (text seg) <= max_chars ->
    (max_duration * (3 # 2) < duration seg)%Q ->
    num_splits seg max_duration
    <= Z.of_nat (length (split_ws (text seg))) ->
    exists ps,
      _split_segment seg max_chars max_duration max_lines = inl ps
      /\ Z.of_nat (length ps) = num_splits seg max_duration
      /\ chained (start_time seg) (map (resolve seg) ps)
      /\ (last_end (start_time seg) (map (resolve seg) ps)
          == end_time seg)%Q
      /\ Forall (fun p => (duration p
                           == duration seg
                              / inject_Z (num_splits seg max_duration))%Q)
           (map (resolve seg) ps).
Proof.
  intros seg max_chars md max_lines Hmd Hlen Hlong Hmany.
  unfold num_splits in *. unfold _split_segment. unfold duration in Hlong, Hmany.
  unfold duration at 1 2.
  set (d := (end_time seg - start_time seg)%Q) in *.
  rewrite (proj2 (Qltb_lt _ _) Hlong). unfold qfloordiv.
  destruct (Qeq_bool md 0) eqn:Ez.
  { apply Qeq_bool_iff in Ez. exfalso. lra. }
  cbn [bind ret raise].
  assert (Hq : 1 <= Qfloor (d / md)).
  { change 1 with (Qfloor (inject_Z 1)) at 1. apply Qfloor_resp_le.
    apply Qle_shift_div_l; [exact Hmd|].
    change (inject_Z 1) with 1%Q. clearbody d. lra. }
  set (n := Qfloor (d / md) + 1) in *.
  unfold qdiv_int.
  destruct (n =? 0) eqn:En; [apply Z.eqb_eq in En; lia|].
  cbn [bind ret raise].
  assert (Hn : (0 < inject_Z n)%Q).
  { change 0%Q with (inject_Z 0). rewrite <- Zlt_Qlt. lia. }
  assert (Hd : (0 < d)%Q) by (clearbody d; lra).
  assert (Hsd : (0 < d / inject_Z n)%Q).
  { apply Qlt_shift_div_l; [exact Hn | lra]. }
  assert (Hcover : (start_time seg + inject_Z n * (d / inject_Z n)
                    == end_time seg)%Q).
  { rewrite Qmult_div_r by lra. unfold d. ring. }
  assert (Hpos : (0 <? n) = true) by (apply Z.ltb_lt; lia).
  rewrite Hpos.
  set (words := split_ws (text seg)) in *.
  set (wps := Z.of_nat (length words) / n).
  assert (Hwps : 1 <= wps /\ n * wps <= Z.of_nat (length words)).
  { subst wps. split.
    - apply Z.div_le_lower_bound; lia.
    - apply Z.mul_div_le. lia. }
  destruct Hwps as [Hwps1 Hwps2].
  set (st0 := {| chunks := []; current_time := start_time seg;
                 start_word_idx := 0 |}).
  pose proof (for_range_tile seg words n wps (d / inject_Z n)%Q
                (split_ws_words (text seg)) Hwps1 Hwps2 Hsd Hcover
                (Z.to_nat n) 0 st0 ltac:(lia) ltac:(lia)) as Htile.
  destruct Htile as (Hcount & _ & Htime & Hchain & Hlast & Hdur).
  { unfold tile_inv, st0. cbn [chunks current_time start_word_idx length
                                chained].
    repeat split; try lia; try constructor.
    change (inject_Z 0) with 0%Q. ring. }
  destruct (for_range_words seg words n wps (d / inject_Z n)%Q
              (split_ws_words (text seg)) ltac:(lia) (Z.to_nat n) 0 st0)
    as [(_ & _ & Hshort) _].
  { unfold chunk_words_inv, st0. cbn [start_word_idx chunks].
    split; [lia|]. split; [reflexivity | constructor]. }
  set (st := for_range _ _ _ _) in *. clearbody st.
  rewrite Z.add_0_l, Z2Nat.id in Hcount, Htime by lia.
  destruct (chunks st) as [|c cs] eqn:Ec; [cbn [length] in Hcount; lia|].
  rewrite split_each_short.
  - cbn [bind ret]. eexists. split; [reflexivity|].
    rewrite resolve_new, length_map.
    split; [exact Hcount|]. split; [exact Hchain|].
    split; [|exact Hdur]. rewrite Hlast, Htime. exact Hcover.
  - eapply Forall_impl; [exact Hshort|]. cbv beta. intros p Hp.
    pose proof (len_join_split_ws (text seg)) as Hj. fold words in Hj. lia.
Qed.

Lemma long_segment_is_tiled_witness :
  exists ps,
    _split_segment scenario_B 1000 7 2 = inl ps
    /\ Z.of_nat (length ps) = num_splits scenario_B 7
    /\ chained (start_time scenario_B) (map (resolve scenario_B) ps)
    /\ (last_end (start_time scenario_B) (map (resolve scenario_B) ps)
        == end_time scenario_B)%Q
    /\ Forall (fun p => (duration p
                         == duration scenario_B
                            / inject_Z (num_splits scenario_B 7))%Q)
         (map (resolve scenario_B) ps).
Proof.
  apply (long_segment_is_tiled scenario_B 1000 7 2).
  - reflexivity.
  - vm_compute. discriminate.
  - reflexivity.
  - vm_compute. discriminate.
Defined.

(** ** [format_time_srt] *)


Lemma py_round_nonneg (x : Q) : (0 <= x)%Q -> 0 <= py_round x.
Proof.
  intros Hx. assert (Hf : 0 <= Qfloor x).
  { change 0 with (Qfloor (inject_Z 0)). now apply Qfloor_resp_le. }
  unfold py_round. destruct (Qcompare _ _); [destruct (Z.even _)| |]; lia.
Qed.

Lemma py_round_mono (x y : Q) : (x <= y)%Q -> py_round x <= py_round y.
Proof.
  intros Hxy.
  pose proof (Qfloor_resp_le _ _ Hxy) as Hf.
  pose proof (Qfloor_le x) as Hx1. pose proof (Qlt_floor x) as Hx2.
  pose proof (Qfloor_le y) as Hy1. pose proof (Qlt_floor y) as Hy2.
  rewrite inject_Z_plus in Hx2, Hy2.
  change (inject_Z 1) with 1%Q in Hx2, Hy2.
  destruct (Z.eq_dec (Qfloor x) (Qfloor y)) as [Heq|Hne].
  - unfold py_round. rewrite <- Heq in *.
    destruct (Qcompare (x - inject_Z (Qfloor x)) (1 # 2)) eqn:Ex;
      destruct (Qcompare (y - inject_Z (Qfloor x)) (1 # 2)) eqn:Ey;
      try (destruct (Z.even (Qfloor x))); try lia; exfalso;
      repeat match goal with
             | H : Qcompare _ _ = Eq |- _ => apply Qeq_alt in H
             | H : Qcompare _ _ = Lt |- _ => apply Qlt_alt in H
             | H : Qcompare _ _ = Gt |- _ => apply Qgt_alt in H
             end; lra.
  - assert (Hlt : Qfloor x + 1 <= Qfloor y) by lia.
    assert (Hhi : py_round x <= Qfloor x + 1).
    { unfold py_round.
      destruct (Qcompare _ _); [destruct (Z.even _)| |]; lia. }
    assert (Hlo : Qfloor y <= py_round y).
    { unfold py_round.
      destruct (Qcompare _ _); [destruct (Z.even _)| |]; lia. }
    lia.
Qed.

Lemma milliseconds_of_nonneg (seconds : Q) : 0 <= milliseconds_of seconds.
Proof.
  unfold milliseconds_of. apply py_round_nonneg.
  destruct (Qltb seconds 0) eqn:E; [lra|].
  apply Qltb_ge in E. lra.
Qed.

Lemma format_time_srt_fields (seconds : Q) :
  let t := milliseconds_of seconds in
  format_time_srt seconds
  = (pad_int 2 (t / 3600000) ++ ":"
     ++ pad_int 2 (t mod 3600000 / 60000) ++ ":"
     ++ pad_int 2 (t mod 3600000 mod 60000 / 1000) ++ ","
     ++ pad_int 3 (t mod 3600000 mod 60000 mod 1000))%string.
Proof. reflexivity. Qed.


Lemma append_inj_length (a a' b b' : string) :
  String.length a = String.length a' ->
  (a ++ b)%string = (a' ++ b')%string -> a = a' /\ b = b'.
Proof.
  revert a'. induction a as [|c a IH]; intros [|c' a'] Hlen H;
    try discriminate.
  - now split.
  - simpl in Hlen, H. injection H as -> H. injection Hlen as Hlen.
    destruct (IH a' Hlen H) as [-> ->]. now split.
Qed.

Lemma all_digits_append (a b : string) :
  all_digits (a ++ b) = all_digits a && all_digits b.
Proof.
  induction a as [|c a IH]; [reflexivity|]. simpl.
  now rewrite IH, andb_assoc.
Qed.

Lemma padded_ok_spec (w bound : nat) (n : Z) :
  forallb (padded_ok w) (seq 0 bound) = true ->
  0 <= n < Z.of_nat bound ->
  String.length (pad_int w n) = w
  /\ all_digits (pad_int w n) = true
  /\ digits_value (pad_int w n) = n.
Proof.
  intros Hall Hn. rewrite forallb_forall in Hall.
  specialize (Hall (Z.to_nat n)). unfold padded_ok in Hall.
  rewrite Z2Nat.id in Hall by lia.
  rewrite in_seq in Hall. specialize (Hall ltac:(lia)).
  apply andb_true_iff in Hall as [Hall H3].
  apply andb_true_iff in Hall as [H1 H2].
  apply Nat.eqb_eq in H1. apply Z.eqb_eq in H3. now repeat split.
Qed.

Lemma pad2_ok (n : Z) :
  0 <= n < 100 ->
  String.length (pad_int 2 n) = 2%nat
  /\ all_digits (pad_int 2 n) = true
  /\ digits_value (pad_int 2 n) = n.
Proof.
  intros Hn. apply (padded_ok_spec 2 100); [|lia].
  vm_compute. reflexivity.
Qed.

Lemma pad3_ok (n : Z) :
  0 <= n < 1000 ->
  String.length (pad_int 3 n) = 3%nat
  /\ all_digits (pad_int 3 n) = true
  /\ digits_value (pad_int 3 n) = n.
Proof.
  intros Hn. apply (padded_ok_spec 3 1000); [|lia].
  vm_compute. reflexivity.
Qed.

Lemma time_fields_below_100h (t : Z) :
  0 <= t < 360000000 ->
  0 <= t / 3600000 < 100
  /\ 0 <= t mod 3600000 / 60000 < 100
  /\ 0 <= t mod 3600000 mod 60000 / 1000 < 100
  /\ 0 <= t mod 3600000 mod 60000 mod 1000 < 1000.
Proof.
  intros Ht.
  pose proof (Z.mod_pos_bound t 3600000 ltac:(lia)) as B1.
  pose proof (Z.mod_pos_bound (t mod 3600000) 60000 ltac:(lia)) as B2.
  pose proof (Z.mod_pos_bound (t mod 3600000 mod 60000) 1000 ltac:(lia))
    as B3.
  repeat split; try (apply Z.div_pos; lia);
    try (apply Z.div_lt_upper_bound; lia); lia.
Qed.

(** X10. Below 100 hours the time string has the fixed shape
    [HH:MM:SS,mmm]: two digits each for hours, minutes and seconds, three
    for the milliseconds, 12 characters in all. *)
Theorem time_string_shape :
  forall seconds : Q,
    milliseconds_of seconds < 360000000 ->
    exists hh mm ss mmm : string,
      format_time_srt seconds
      = (hh ++ ":" ++ mm ++ ":" ++ ss ++ "," ++ mmm)%string
      /\ String.length hh = 2%nat /\ String.length mm = 2%nat
      /\ String.length ss = 2%nat /\ String.length mmm = 3%nat
      /\ all_digits (hh ++ mm ++ ss ++ mmm) = true
      /\ String.length (format_time_srt seconds) = 12%nat.
Proof.
  intros seconds Hlt. pose proof (milliseconds_of_nonneg seconds) as Ht.
  rewrite format_time_srt_fields. cbv zeta.
  destruct (time_fields_below_100h (milliseconds_of seconds) ltac:(lia))
    as (Hh & Hm & Hs & Hms).
  destruct (pad2_ok _ Hh) as (Lh & Dh & _).
  destruct (pad2_ok _ Hm) as (Lm & Dm & _).
  destruct (pad2_ok _ Hs) as (Ls & Ds & _).
  destruct (pad3_ok _ Hms) as (Lms & Dms & _).
  do 4 eexists. split; [reflexivity|].
  repeat (split; [assumption|]). split.
  - rewrite !all_digits_append, Dh, Dm, Ds, Dms. reflexivity.
  - rewrite !length_append, Lh, Lm, Ls, Lms. reflexivity.
Qed.

Lemma time_string_shape_witness :
  exists hh mm ss mmm : string,
    format_time_srt (3661 + (1 # 2))
    = (hh ++ ":" ++ mm ++ ":" ++ ss ++ "," ++ mmm)%string
    /\ String.length hh = 2%nat /\ String.length mm = 2%nat
    /\ String.length ss = 2%nat /\ String.length mmm = 3%nat
    /\ all_digits (hh ++ mm ++ ss ++ mmm) = true
    /\ String.length (format_time_srt (3661 + (1 # 2))) = 12%nat.
Proof.
  apply (time_string_shape (3661 + (1 # 2))). vm_compute. reflexivity.
Defined.

(** X11. Below 100 hours the time string determines the time to the
    millisecond: two times that are printed alike round to the same number
    of milliseconds. *)
Theorem time_string_determines_milliseconds :
  forall a b : Q,
    milliseconds_of a < 360000000 ->
    milliseconds_of b < 360000000 ->
    format_time_srt a = format_time_srt b ->
    milliseconds_of a = milliseconds_of b.
Proof.
  intros a b Ha Hb H.
  pose proof (milliseconds_of_nonneg a) as Ha0.
  pose proof (milliseconds_of_nonneg b) as Hb0.
  rewrite !format_time_srt_fields in H. cbv zeta in H.
  set (x := milliseconds_of a) in *. set (y := milliseconds_of b) in *.
  clearbody x y.
  destruct (time_fields_below_100h x ltac:(lia)) as (Xh & Xm & Xs & Xms).
  destruct (time_fields_below_100h y ltac:(lia)) as (Yh & Ym & Ys & Yms).
  destruct (pad2_ok _ Xh) as (Lxh & _ & Vxh).
  destruct (pad2_ok _ Xm) as (Lxm & _ & Vxm).
  destruct (pad2_ok _ Xs) as (Lxs & _ & Vxs).
  destruct (pad3_ok _ Xms) as (_ & _ & Vxms).
  destruct (pad2_ok _ Yh) as (Lyh & _ & Vyh).
  destruct (pad2_ok _ Ym) as (Lym & _ & Vym).
  destruct (pad2_ok _ Ys) as (Lys & _ & Vys).
  destruct (pad3_ok _ Yms) as (_ & _ & Vyms).
  apply append_inj_length in H as [Eh H]; [|congruence].
  apply (append_inj_length ":" ":") in H as [_ H]; [|reflexivity].
  apply append_inj_length in H as [Em H]; [|congruence].
  apply (append_inj_length ":" ":") in H as [_ H]; [|reflexivity].
  apply append_inj_length in H as [Es H]; [|congruence].
  apply (append_inj_length "," ",") in H as [_ Ems]; [|reflexivity].
  assert (E1 : x / 3600000 = y / 3600000) by congruence.
  assert (E2 : x mod 3600000 / 60000 = y mod 3600000 / 60000)
    by congruence.
  assert (E3 : x mod 3600000 mod 60000 / 1000
               = y mod 3600000 mod 60000 / 1000) by congruence.
  assert (E4 : x mod 3600000 mod 60000 mod 1000
               = y mod 3600000 mod 60000 mod 1000) by congruence.
  pose proof (Z.div_mod x 3600000 ltac:(lia)).
  pose proof (Z.div_mod y 3600000 ltac:(lia)).
  pose proof (Z.div_mod (x mod 3600000) 60000 ltac:(lia)).
  pose proof (Z.div_mod (y mod 3600000) 60000 ltac:(lia)).
  pose proof (Z.div_mod (x mod 3600000 mod 60000) 1000 ltac:(lia)).
  pose proof (Z.div_mod (y mod 3600000 mod 60000) 1000 ltac:(lia)).
  lia.
Qed.

Lemma time_string_determines_milliseconds_witness :
  milliseconds_of (5 + (1 # 10)) = milliseconds_of (5 + (1001 # 10000)).
Proof.
  apply (time_string_determines_milliseconds
           (5 + (1 # 10)) (5 + (1001 # 10000))).
  - vm_compute. reflexivity.
  - vm_compute. reflexivity.
  - vm_compute. reflexivity.
Defined.

Lemma milliseconds_of_mono (a b : Q) :
  (a <= b)%Q -> milliseconds_of a <= milliseconds_of b.
Proof.
  intros Hab. unfold milliseconds_of. apply py_round_mono.
  destruct (Qltb a 0) eqn:Ea; destruct (Qltb b 0) eqn:Eb;
    try apply Qltb_lt in Ea; try apply Qltb_lt in Eb;
    try apply Qltb_ge in Ea; try apply Qltb_ge in Eb; lra.
Qed.

(** X12. The time line of a cue block never shows an end before its start:
    the end time of every block formatted rounds to at least as many
    milliseconds as its start time (rounding is monotone, and the final
    duration check leaves the end after the start). *)
Theorem printed_end_not_before_start :
  forall (tr : TranscriptionResult) (fs : filesystem)
         (max_chars_per_segment : Z) (max_duration_seconds : Q)
         (max_lines_per_block : Z),
    Forall (fun c => milliseconds_of (cue_start c)
                     <= milliseconds_of (cue_end c))
      (cues (format_subtitles tr fs max_chars_per_segment
               max_duration_seconds max_lines_per_block)).
Proof.
  intros tr fs mcps md ml.
  destruct (cues_of_pieces tr fs mcps md ml) as [Hpre _].
  eapply Forall_prefix; [exact Hpre|]. apply Forall_cues_from.
  apply List.Forall_forall. intros p _ j.
  unfold cue_of. cbn [cue_start cue_end].
  apply milliseconds_of_mono, Qlt_le_weak, ensure_duration_positive.
Qed.

(** * Properties of the generator *)

(** ** The translation loop *)

Lemma translate_segments_ok (tr : nat -> string -> string + error)
    (english_segments : list Segment) :
  forall i acc ms,
    translate_segments tr i english_segments acc = inl ms ->
    exists new,
      ms = (acc ++ new)%list
      /\ length new = length english_segments
      /\ forall k s,
           english_segments !! k = Some s ->
           exists m,
             new !! k = Some m
             /\ start_time m = start_time s
             /\ end_time m = end_time s
             /\ tr (i + k)%nat (text s) = inl (text m).
Proof.
  induction english_segments as [|seg rest IH]; intros i acc ms H;
    cbn [translate_segments] in H.
  - injection H as <-. exists []. rewrite app_nil_r.
    repeat split. intros k s Hk. discriminate.
  - destruct (tr i (text seg)) as [t|e] eqn:Et; [|discriminate].
    destruct (IH _ _ _ H) as (new & -> & Hlen & Hall).
    exists (mkSegment (start_time seg) (end_time seg) t :: new).
    split; [now rewrite <- app_assoc|]. split; [cbn [length]; lia|].
    intros [|k] s Hk.
    + injection Hk as <-. eexists. split; [reflexivity|].
      cbn [start_time end_time text]. now rewrite Nat.add_0_r.
    + destruct (Hall k s Hk) as (m & Hm & Hs & He & Ht).
      exists m. repeat split; try assumption.
      now replace (i + S k)%nat with (S i + k)%nat by lia.
Qed.

Lemma translate_segments_fails (tr : nat -> string -> string + error)
    (english_segments : list Segment) :
  forall i acc k s e,
    english_segments !! k = Some s ->
    tr (i + k)%nat (text s) = inr e ->
    translate_segments tr i english_segments acc = inr NameError.
Proof.
  induction english_segments as [|seg rest IH]; intros i acc k s e Hk He;
    [discriminate|].
  cbn [translate_segments].
  destruct (tr i (text seg)) as [t|e'] eqn:Et; [|reflexivity].
  destruct k as [|k].
  - injection Hk as <-. rewrite Nat.add_0_r in He. congruence.
  - eapply (IH (S i) _ k s e); [exact Hk|].
    now replace (S i + k)%nat with (i + S k)%nat by lia.
Qed.

Lemma rev_case {A} (l : list A) :
  l = [] \/ exists l0 a, l = (l0 ++ [a])%list.
Proof.
  induction l as [|a l _] using rev_ind; [now left|].
  right. now exists l, a.
Qed.

(** The objects of the input list after a call of [format_subtitles]. *)
Lemma segments_after_call (h h' : list Segment) :
  store_evolves h h' ->
  Forall2 same_or_padded h (take (length h) h').
Proof.
  intros Hev.
  assert (Hlen : (length h <= length h')%nat).
  { destruct (rev_case h) as [->|(h0 & a & ->)]; [cbn [length]; lia|].
    rewrite length_app. cbn [length].
    destruct (Hev (length h0) a) as (a' & Ha' & _).
    - apply list_lookup_middle. reflexivity.
    - apply lookup_lt_Some in Ha'. lia. }
  apply Forall2_same_length_lookup_2.
  - rewrite length_take. lia.
  - intros i x y Hx Hy. destruct (Hev i x Hx) as (x' & Hx' & Hsp).
    apply lookup_take_Some in Hy as [Hy _]. congruence.
Qed.

Lemma same_or_padded_text (seg seg' : Segment) :
  same_or_padded seg seg' -> text seg' = text seg.
Proof. intros [->|[_ ->]]; reflexivity. Qed.

(** ** [generate] *)

(** X13. A call of [generate] that raises nothing has written both files,
    and the Malayalam input has one segment for every English segment, in
    the same order: it carries the translation of the English text, the
    English start time, and the English end time as the first call of
    [format_subtitles] left it (the original one, or start time + 0.1 s for a
    segment whose end was not after its start). No segment is ever
    skipped. *)
Theorem successful_run_translates_every_segment :
  forall (c : collaborators) (video_path output_dir : string)
         (max_chars : Z) (max_duration : Q) (max_lines : Z),
    let g := generate c video_path output_dir max_chars max_duration
               max_lines in
    failure g = None ->
    exists path tr mres,
      extract_audio c video_path = inl path
      /\ transcribe c path = inl (Some tr)
      /\ english g
         = Some (format_subtitles tr (en_file c) max_chars max_duration
                   max_lines)
      /\ malayalam_result g = Some mres
      /\ malayalam g
         = Some (format_subtitles mres (ml_file c) max_chars max_duration
                   max_lines)
      /\ length (segments mres) = length (segments tr)
      /\ forall k s,
           segments tr !! k = Some s ->
           exists m,
             segments mres !! k = Some m
             /\ start_time m = start_time s
             /\ (end_time m = end_time s
                 \/ ((end_time s <= start_time s)%Q
                     /\ end_time m = (start_time s + tenth)%Q))
             /\ translate c k (text s) = inl (text m).
Proof.
  intros c video out mc md ml. cbv zeta. unfold generate.
  destruct (ensure_dir_exists out (output_dir_state c)); [discriminate|].
  destruct (extract_audio c video) as [path|e] eqn:Eaudio; [|discriminate].
  destruct (transcribe c path) as [[tr|]|e] eqn:Etrans; try discriminate.
  destruct (segments tr) as [|s0 rest] eqn:Esegs; [discriminate|].
  rewrite <- Esegs.
  pose proof (segments_after_call _ _
                (format_subtitles_store tr (en_file c) mc md ml)) as Hafter.
  set (en := format_subtitles tr (en_file c) mc md ml) in *.
  destruct (raised en); [discriminate|].
  set (eng := take (length (segments tr)) (store_after en)) in *.
  destruct (translate_segments (translate c) 0 eng []) as [ms|e] eqn:Etr;
    [|discriminate].
  destruct (translate_segments_ok _ _ _ _ _ Etr) as (new & Hms & Hlen & Hall).
  cbn [app] in Hms. subst ms.
  assert (Hsame : length new = length (segments tr)).
  { rewrite Hlen. symmetry. eapply Forall2_length, Hafter. }
  destruct new as [|m0 new'].
  { rewrite Esegs in Hsame. discriminate. }
  set (new := m0 :: new') in *. clearbody new.
  set (mres := {| language := Some "ml"; segments := new;
                  original_audio_path := Some path |}).
  destruct (raised (format_subtitles mres (ml_file c) mc md ml)) eqn:Eml;
    [discriminate|].
  intros _. exists path, tr, mres. cbn [english malayalam_result malayalam].
  split; [reflexivity|]. split; [exact Etrans|].
  repeat (split; [reflexivity|]). split; [exact Hsame|].
  intros k s Hs.
  destruct (Forall2_lookup_l _ _ _ _ _ Hafter Hs) as (s' & Hs' & Hpad).
  destruct (Hall k s' Hs') as (m & Hm & Hst & Hen & Htext).
  exists m. cbn [segments mres]. split; [exact Hm|].
  rewrite (same_or_padded_text _ _ Hpad) in Htext.
  destruct Hpad as [->|[Hle ->]].
  - repeat split; [exact Hst | now left | exact Htext].
  - cbn [start_time end_time set_end_time] in Hst, Hen.
    repeat split; [exact Hst | right; now split | exact Htext].
Qed.

Lemma successful_run_translates_every_segment_witness :
  let g := generate working_collaborators "v.mp4" "out" 80 7 2 in
  exists path tr mres,
    extract_audio working_collaborators "v.mp4" = inl path
    /\ transcribe working_collaborators path = inl (Some tr)
    /\ english g
       = Some (format_subtitles tr (en_file working_collaborators) 80 7 2)
    /\ malayalam_result g = Some mres
    /\ malayalam g
       = Some (format_subtitles mres (ml_file working_collaborators) 80 7 2)
    /\ length (segments mres) = length (segments tr)
    /\ forall k s,
         segments tr !! k = Some s ->
         exists m,
           segments mres !! k = Some m
           /\ start_time m = start_time s
           /\ (end_time m = end_time s
               \/ ((end_time s <= start_time s)%Q
                   /\ end_time m = (start_time s + tenth)%Q))
           /\ translate working_collaborators k (text s) = inl (text m).
Proof.
  apply (successful_run_translates_every_segment working_collaborators
           "v.mp4" "out" 80 7 2).
  vm_compute. reflexivity.
Defined.

(** X14. A translation that fails aborts the call: when the English file
    has been written and [translate] raises for some segment, whatever the
    class of the exception, [generate] raises [SyncSubError], formats no
    Malayalam subtitles and hands the extracted audio to the cleanup. The
    handler of the loop names [TranslationError], which the module does not
    import, so no segment is skipped. *)
Theorem failed_translation_aborts :
  forall (c : collaborators) (video_path output_dir : string)
         (max_chars : Z) (max_duration : Q) (max_lines : Z)
         (path : string) (tr : TranscriptionResult) (k : nat)
         (seg : Segment) (e : error),
    ensure_dir_exists output_dir (output_dir_state c) = None ->
    extract_audio c video_path = inl path ->
    transcribe c path = inl (Some tr) ->
    raised (format_subtitles tr (en_file c) max_chars max_duration max_lines)
    = None ->
    segments tr !! k = Some seg ->
    translate c k (text seg) = inr e ->
    let g := generate c video_path output_dir max_chars max_duration
               max_lines in
    failure g = Some SyncSubError
    /\ english g
       = Some (format_subtitles tr (en_file c) max_chars max_duration
                 max_lines)
    /\ malayalam g = None
    /\ cleaned g = Some path.
Proof.
  intros c video out mc md ml path tr k seg e Hdir Haudio Htrans Hen Hk He.
  cbv zeta. unfold generate. rewrite Hdir, Haudio, Htrans.
  destruct (segments tr) as [|s0 rest] eqn:Esegs; [discriminate|].
  rewrite <- Esegs in *. rewrite Hen.
  pose proof (segments_after_call _ _
                (format_subtitles_store tr (en_file c) mc md ml)) as Hafter.
  destruct (Forall2_lookup_l _ _ _ _ _ Hafter Hk) as (seg' & Hk' & Hpad).
  rewrite <- (same_or_padded_text _ _ Hpad) in He.
  rewrite (translate_segments_fails (translate c) _ 0 [] k seg' e Hk' He).
  now repeat split.
Qed.

Lemma failed_translation_aborts_witness :
  let g := generate failing_translator "v.mp4" "out" 80 7 2 in
  failure g = Some SyncSubError
  /\ english g
     = Some (format_subtitles two_segments (en_file failing_translator)
               80 7 2)
  /\ malayalam g = None
  /\ cleaned g = Some "a.wav".
Proof.
  apply (failed_translation_aborts failing_translator "v.mp4" "out" 80 7 2
           "a.wav" two_segments 1 (mkSegment 6 7 "there") TranslationError);
    reflexivity.
Defined.



(** * No words are invented *)

Lemma split_ws_join_lines (lines : list string) :
  split_ws (join nl lines) = flat_map split_ws lines.
Proof.
  induction lines as [|x lines IH]; [reflexivity|].
  rewrite join_cons. cbn [flat_map]. destruct lines as [|y rest].
  - cbn [flat_map]. now rewrite app_nil_r.
  - change (x ++ nl ++ join nl (y :: rest))%string
      with (x ++ String newline (join nl (y :: rest)))%string.
    now rewrite (split_ws_space newline _ _ eq_refl), IH.
Qed.

Section KnownWords.
Variables (segment : Segment) (max_chars max_lines : Z).
Variables (time_per_char : Q) (n_words : Z) (universe : list string).

Lemma close_block_known (st : block_state) lines processed next_line :
  known_words_inv universe st ->
  incl (flat_map split_ws lines) universe ->
  incl (split_ws next_line) universe ->
  known_words_inv universe
    (close_block segment time_per_char st lines processed next_line).
Proof.
  intros (Hsegs & _ & _) Hlines Hnext. unfold close_block, known_words_inv.
  cbn [split_segments current_line lines_in_block flat_map].
  split; [|split; [exact Hnext | apply incl_nil_l]].
  apply Forall_app. split; [exact Hsegs|].
  constructor; [|constructor]. cbn [text].
  now rewrite split_ws_join_lines.
Qed.

Lemma lines_snoc_known (lines : list string) (line : string) :
  incl (flat_map split_ws lines) universe ->
  incl (split_ws line) universe ->
  incl (flat_map split_ws (lines ++ [line])) universe.
Proof.
  intros H1 H2. rewrite flat_map_app. cbn [flat_map]. rewrite app_nil_r.
  now apply incl_app.
Qed.

Lemma split_word_known (st st' : block_state) (i : Z) (word : string) :
  is_word word = true -> In word universe ->
  split_word segment max_chars max_lines time_per_char n_words st i word
  = inl st' ->
  known_words_inv universe st -> known_words_inv universe st'.
Proof.
  unfold split_word. intros Hword Hin H Hst.
  assert (Hw : incl (split_ws word) universe).
  { rewrite (split_ws_word _ Hword). intros w [<-|[]]. exact Hin. }
  assert (Hpot : incl (split_ws
                         (if nonempty (current_line st)
                          then (current_line st ++ " " ++ word)%string
                          else word)) universe).
  { destruct (nonempty (current_line st)); [|exact Hw].
    change (current_line st ++ " " ++ word)%string
      with (current_line st ++ String " " word)%string.
    rewrite (split_ws_space " " _ _ eq_refl).
    apply incl_app; [apply Hst | exact Hw]. }
  destruct (floordiv max_chars max_lines) as [per_line|e] eqn:Ediv;
    [|destruct (max_chars <? _); discriminate].
  set (mid := if nonempty (current_line st)
              then close_block segment time_per_char st
                     (lines_in_block st ++ [current_line st])%list
                     (processed_chars st) word
              else with_line st word) in *.
  assert (Hmid : known_words_inv universe mid).
  { subst mid. destruct (nonempty (current_line st)).
    - apply close_block_known; [exact Hst | | exact Hw].
      apply lines_snoc_known; apply Hst.
    - destruct Hst as (H1 & _ & H3). now repeat split. }
  clearbody mid.
  assert (Hlines : incl (flat_map split_ws
                           (lines_in_block mid ++ [current_line mid]))
                     universe)
    by (apply lines_snoc_known; apply Hmid).
  destruct (max_chars <? _); cbn [bind] in H.
  - destruct (per_line <? _).
    + destruct (_ || _); injection H as <-.
      * apply close_block_known; [exact Hmid | exact Hlines|].
        apply incl_nil_l.
      * destruct Hmid as (H1 & H2 & _). now repeat split.
    + injection H as <-. destruct Hmid as (H1 & _ & _).
      unfold push_line, known_words_inv.
      cbn [split_segments current_line lines_in_block].
      repeat split; [exact H1 | apply incl_nil_l | exact Hlines].
  - destruct (_ && _); injection H as <-.
    + destruct Hst as (H1 & _ & H3).
      unfold push_line, known_words_inv.
      cbn [split_segments current_line lines_in_block].
      repeat split; [exact H1 | apply incl_nil_l|].
      now apply lines_snoc_known.
    + destruct Hst as (H1 & _ & H3). now repeat split.
Qed.

Lemma for_words_known (words : list string) :
  forall i st st',
    Forall (fun w => is_word w = true) words ->
    incl words universe ->
    for_words (split_word segment max_chars max_lines time_per_char n_words)
      i words st = inl st' ->
    known_words_inv universe st -> known_words_inv universe st'.
Proof.
  induction words as [|w ws IH]; intros i st st' Hws Hin H Hst; simpl in H.
  - now injection H as <-.
  - inversion Hws as [|? ? Hw Hrest]; subst.
    destruct (split_word _ _ _ _ _ st i w) as [st1|e] eqn:E1;
      [|discriminate].
    cbn [bind] in H. eapply IH; [exact Hrest | | exact H |].
    + intros x Hx. apply Hin. now right.
    + eapply split_word_known; eauto. apply Hin. now left.
Qed.
End KnownWords.

(** The blocks of the character splitter hold words of the segment only. *)
Lemma split_by_chars_known (segment : Segment) (max_chars max_lines : Z) :
  Forall (fun p => incl (split_ws (text p)) (split_ws (text segment)))
    (pieces segment (_split_segment_by_chars segment max_chars max_lines)).
Proof.
  destruct (_split_segment_by_chars segment max_chars max_lines)
    as [ps|e] eqn:H; [|constructor].
  unfold pieces. unfold _split_segment_by_chars in H.
  assert (Hsame : Forall (fun p => incl (split_ws (text p))
                                     (split_ws (text segment)))
                    (map (resolve segment) [Same])).
  { repeat constructor. apply incl_refl. }
  destruct (len (text segment) <=? max_chars); [now injection H as <-|].
  pose proof (split_ws_words (text segment)) as Hws.
  destruct (split_ws (text segment)) as [|w ws]; [now injection H as <-|].
  set (universe := w :: ws) in *.
  destruct (floordiv (len (text segment)) max_chars) as [q|e];
    [|discriminate].
  cbn [bind ret] in H.
  match type of H with
  | context [for_words ?b ?i ?wl ?st0] =>
      destruct (for_words b i wl st0) as [st|e] eqn:Eloop; [|discriminate];
      assert (Hinv : known_words_inv universe st)
  end.
  { eapply for_words_known;
      [exact Hws | apply incl_refl | exact Eloop|].
    unfold known_words_inv. cbn [split_segments current_line lines_in_block
                                   flat_map].
    repeat split; [constructor | apply incl_nil_l | apply incl_nil_l]. }
  cbn [bind ret] in H. injection H as <-.
  rewrite resolve_new. apply Forall_filter_bool.
  destruct Hinv as (Hsegs & Hcur & Hlines).
  assert (Hlast : incl (flat_map split_ws
                          (if nonempty (current_line st)
                           then (lines_in_block st ++ [current_line st])%list
                           else lines_in_block st)) universe).
  { destruct (nonempty (current_line st)); [|exact Hlines].
    now apply lines_snoc_known. }
  destruct (if nonempty (current_line st)
            then (lines_in_block st ++ [current_line st])%list
            else lines_in_block st) as [|l0 ls] eqn:El; [exact Hsegs|].
  apply Forall_app. split; [exact Hsegs|].
  constructor; [|constructor]. cbn [text].
  now rewrite split_ws_join_lines.
Qed.

Lemma incl_take {A} (n : nat) (xs : list A) : incl (take n xs) xs.
Proof.
  revert xs. induction n as [|n IH]; intros [|x xs] y Hy;
    cbn [take firstn] in *; try contradiction.
  destruct Hy as [->|Hy]; [now left | right; now apply IH].
Qed.

Lemma incl_drop {A} (n : nat) (xs : list A) : incl (drop n xs) xs.
Proof.
  revert xs. induction n as [|n IH]; intros [|x xs] y Hy;
    cbn [drop skipn] in *; try assumption.
  right. now apply IH.
Qed.

Lemma incl_slice {A} (xs : list A) (a b : Z) : incl (slice xs a b) xs.
Proof.
  unfold slice. eapply incl_tran; [apply incl_take | apply incl_drop].
Qed.

Lemma for_range_known (segment : Segment) (words : list string)
    (n wps : Z) (sd : Q) (count : nat) :
  Forall (fun w => is_word w = true) words ->
  forall i st,
    Forall (fun c => incl (split_ws (text c)) words) (chunks st) ->
    Forall (fun c => incl (split_ws (text c)) words)
      (chunks (for_range (split_chunk segment words n wps sd) count i st)).
Proof.
  intros Hws. induction count as [|count IH]; intros i st Hall;
    [exact Hall|].
  cbn [for_range]. apply IH. unfold split_chunk.
  destruct (nonempty _); [|exact Hall].
  cbn [chunks]. apply Forall_app. split; [exact Hall|].
  constructor; [|constructor]. cbn [text].
  rewrite (split_ws_join " "%char _ eq_refl).
  - apply incl_slice.
  - unfold slice. now apply Forall_take, Forall_drop.
Qed.

Lemma split_each_known (segs : list Segment) (max_chars max_lines : Z)
    (universe : list string) (self : Segment) :
  Forall (fun c => incl (split_ws (text c)) universe) segs ->
  Forall (fun p => incl (split_ws (text p)) universe)
    (pieces self (split_each segs max_chars max_lines)).
Proof.
  induction 1 as [|seg rest Hseg _ IH]; [constructor|].
  cbn [split_each].
  pose proof (split_by_chars_known seg max_chars max_lines) as Hps.
  destruct (_split_segment_by_chars seg max_chars max_lines) as [ps|e];
    [|constructor].
  cbn [bind]. destruct (split_each rest max_chars max_lines) as [final|e];
    [|constructor].
  cbn [bind ret pieces] in *. rewrite map_app. apply Forall_app.
  split; [|exact IH]. clear IH.
  induction ps as [|[|s] ps IHps]; cbn [map resolve] in *;
    inversion Hps; subst; constructor; auto;
    eapply incl_tran; eauto.
Qed.

(** The pieces of a segment hold words of the segment only. *)
Lemma split_segment_known (seg : Segment) (max_chars : Z) (max_duration : Q)
    (max_lines : Z) :
  Forall (fun p => incl (split_ws (text p)) (split_ws (text seg)))
    (pieces seg (_split_segment seg max_chars max_duration max_lines)).
Proof.
  unfold _split_segment.
  assert (Hfall : Forall (fun p => incl (split_ws (text p))
                                     (split_ws (text seg)))
                    (pieces seg
                       (if max_chars <? len (text seg)
                        then _split_segment_by_chars seg max_chars max_lines
                        else ret [Same]))).
  { destruct (max_chars <? len (text seg));
      [apply split_by_chars_known|].
    repeat constructor. apply incl_refl. }
  destruct (Qltb _ _); [|cbn [bind ret]; exact Hfall].
  destruct (qfloordiv _ _) as [q|e]; [|constructor]. cbn [bind].
  destruct (qdiv_int _ _) as [sd|e]; [|constructor]. cbn [bind].
  match goal with
  | |- context [for_range ?b ?n ?i ?st0] =>
      pose proof (for_range_known seg (split_ws (text seg)) (q + 1)
                    (if 0 <? q + 1
                     then Z.of_nat (length (split_ws (text seg))) / (q + 1)
                     else Z.of_nat (length (split_ws (text seg))))
                    sd n (split_ws_words (text seg)) i st0
                    ltac:(constructor)) as Hchunks;
      destruct (chunks (for_range b n i st0)) as [|c cs]
  end; [cbn [bind ret]; exact Hfall|].
  pose proof (split_each_known (c :: cs) max_chars max_lines _ seg Hchunks)
    as Heach.
  destruct (split_each (c :: cs) max_chars max_lines) as [final|e];
    [exact Heach | constructor].
Qed.

(** X16. No word is invented: the words of every cue block formatted are
    words of one input segment, whatever the configuration (words can be
    repeated or lost, but none comes from elsewhere). *)
Theorem cue_words_come_from_a_segment :
  forall (tr : TranscriptionResult) (fs : filesystem)
         (max_chars_per_segment : Z) (max_duration_seconds : Q)
         (max_lines_per_block : Z),
    Forall (fun c => exists seg,
                In seg (segments tr)
                /\ incl (cue_words c) (split_ws (text seg)))
      (cues (format_subtitles tr fs max_chars_per_segment
               max_duration_seconds max_lines_per_block)).
Proof.
  intros tr fs mcps md ml.
  destruct (cues_of_pieces tr fs mcps md ml) as [Hpre _].
  eapply Forall_prefix; [exact Hpre|]. apply Forall_cues_from.
  unfold all_pieces. apply Forall_flat_map.
  apply List.Forall_forall. intros seg Hseg.
  eapply Forall_impl; [apply split_segment_known|]. cbv beta.
  intros p Hp j. exists seg. split; [exact Hseg|].
  unfold cue_words, cue_of. cbn [cue_lines].
  destruct (block_lines_words mcps ml (text p)) as [[rest Hrest] _].
  intros w Hw. apply Hp. rewrite Hrest. apply in_or_app. now left.
Qed.

(** * The segments the splitters build *)






